(** * Confura: epoch synchronisation, partitioned log store and stall monitor

    A shallow embedding of
    - [KVCacheSyncer] (package [sync]): the loop body that feeds a cache store
      from the chain, driven by an epoch window;
    - [logStoreV2] (package [mysql]): event logs written into block-number
      partitioned tables;
    - [Monitor] (package [monitor]): the watchdog on the sync height.

    Go's [uint64]/[uint32] values are integers in [Z]; every arithmetic
    operation of the source is followed by its wrap-around.  Collaborators
    the source reaches through an interface (the cache store, the chain
    client, the SQL engine) are scripted: they answer as a function of what
    they were asked, and every call is written to a journal. *)

From Stdlib Require Import ZArith Lia.
From stdpp Require Import base option list gmap strings sorting.

Local Open Scope Z_scope.

(** ** Machine integers *)

Definition u64 (z : Z) : Z := z mod 2 ^ 64.
Definition u32 (z : Z) : Z := z mod 2 ^ 32.
Definition maxUint64 : Z := 2 ^ 64 - 1.

(** ** Go errors

    [errors.New], [errors.Errorf], [errors.WithMessage] and
    [errors.WithMessagef] of github.com/pkg/errors, kept as a tree so that a
    wrapped cause stays visible. *)

Inductive error : Type :=
| errNew (msg : string)
| errErrorf (fmt : string) (arg : Z)
| errWithMessage (cause : error) (msg : string)
| errWithMessagef (cause : error) (fmt : string) (arg : Z).

(** ** Package [store]: the chain data handed from the client to the stores *)

Module Store.

Record Log := {
  Address : string;          (* base32 address of the emitting contract *)
  Topics : list string;
  Data : string
}.

Record TransactionReceipt := { Logs : list Log }.

Record LogExtra := { extraBytes : string }.

Record ReceiptExtra := { LogExts : list (option LogExtra) }.

Record Transaction := {
  Hash : string;
  BlockHash : option string;
  Status : option Z
}.

Record Block := {
  BlockNumber : Z;           (* *hexutil.Big *)
  Transactions : list Transaction
}.

(** Values of the two Go maps are pointers, hence [option]. *)
Record EpochData := {
  Number : Z;
  Blocks : list Block;
  Receipts : gmap string (option TransactionReceipt);
  ReceiptExts : gmap string (option ReceiptExtra)
}.

(** [big.Int.Uint64] of a block number: the low 64 bits. *)
Definition bnUint64 (b : Block) : Z := u64 (BlockNumber b).

End Store.

(** ** The epoch window *)

Module EpochWindow.

(** Modelled from the spec: the type [epochWindow] and its methods are
    declared in a file of package [sync] that is not among the sources.
    Section 3 gives the data ([from], [to], both uint64, plus the
    configured decay threshold), section 4.1 the operations. *)
Record epochWindow := {
  capacity : Z;
  epochFrom : Z;
  epochTo : Z
}.

(** Modelled from the spec: [newEpochWindow] is missing from the sources;
    the window starts in its zero state. *)
Definition newEpochWindow (cap : Z) : epochWindow :=
  {| capacity := cap; epochFrom := 0; epochTo := 0 |}.

(** Modelled from the spec: [isEmpty] is missing from the sources;
    true iff [to < from]. *)
Definition isEmpty (w : epochWindow) : bool := epochTo w <? epochFrom w.

(** Modelled from the spec: [peekWillPivotSwitch] is missing from the
    sources; true iff [newEpoch <= to], an epoch that is no forward
    extension of the window. *)
Definition peekWillPivotSwitch (w : epochWindow) (newEpoch : Z) : bool :=
  newEpoch <=? epochTo w.

(** Modelled from the spec: [peekWillOverflow] is missing from the sources;
    true iff [newEpoch - from] exceeds the decay threshold. *)
Definition peekWillOverflow (w : epochWindow) (newEpoch : Z) : bool :=
  capacity w <? u64 (newEpoch - epochFrom w).

(** Modelled from the spec: [expandTo] is missing from the sources; extends
    [to] to [newEpoch] if greater, no-op otherwise. *)
Definition expandTo (w : epochWindow) (newEpoch : Z) : epochWindow :=
  if epochTo w <? newEpoch
  then {| capacity := capacity w; epochFrom := epochFrom w; epochTo := newEpoch |}
  else w.

(** Modelled from the spec: [reset] is missing from the sources;
    unconditional overwrite of both bounds. *)
Definition reset (w : epochWindow) (from to : Z) : epochWindow :=
  {| capacity := capacity w; epochFrom := from; epochTo := to |}.

(** Modelled from the spec: [expandFrom] is missing from the sources; resets
    both [from] and [to] to [newEpoch]. *)
Definition expandFrom (w : epochWindow) (newEpoch : Z) : epochWindow :=
  reset w newEpoch newEpoch.

(** Modelled from the spec: [peekShrinkFrom] is missing from the sources;
    the next chunk of up to [maxCount] epochs starting at [from], window
    untouched; size [min(maxCount, to - from + 1)], 0 when empty. *)
Definition peekShrinkFrom (w : epochWindow) (maxCount : Z) : Z * Z :=
  if isEmpty w then (epochFrom w, 0)
  else (epochFrom w, Z.min maxCount (u64 (epochTo w - epochFrom w + 1))).

(** Modelled from the spec: [shrinkFrom] is missing from the sources; the
    same chunk, and [from] moves past it. *)
Definition shrinkFrom (w : epochWindow) (maxCount : Z) : epochWindow * (Z * Z) :=
  let '(start, size) := peekShrinkFrom w maxCount in
  ({| capacity := capacity w;
      epochFrom := u64 (epochFrom w + size);
      epochTo := epochTo w |},
   (start, size)).

End EpochWindow.

(** ** Package [sync]: [KVCacheSyncer] *)

Module Sync.
Import Store EpochWindow.

(** The threshold gap after which epochs are regarded as decayed. *)
Definition decayedEpochGapThreshold : Z := 100000.

(** Calls that leave the syncer: to the cache store ([store.CacheStore]),
    to the chain client ([store.QueryEpochData]) and to the consistency
    check [ensureStoreEpochDataOk]. *)
Inductive call : Type :=
| CallEnsureStoreEpochDataOk
| CallGetGlobalEpochRange
| CallQueryEpochData (epochNo : Z)
| CallPushn (dataSlice : list EpochData)
| CallPopn (epochUntil : Z)
| CallFlush.

(** What the collaborators answer.  The first argument is the journal of
    the calls made before this one: a store or a node may answer the same
    question differently the second time. *)
Record collaborators := {
  ensureStoreEpochDataOk : list call -> option error;
  GetGlobalEpochRange : list call -> error + Z * Z;
  IsRecordNotFound : error -> bool;
  QueryEpochData : list call -> Z -> error + EpochData;
  Pushn : list call -> list EpochData -> option error;
  Popn : list call -> Z -> option error;
  Flush : list call -> option error
}.

Record KVCacheSyncer := {
  maxSyncEpochs : Z;
  syncWindow : epochWindow
}.

(** The syncer together with the journal of its outgoing calls. *)
Record world := {
  syncer : KVCacheSyncer;
  journal : list call
}.

(** A state monad over [world]; the methods on [*KVCacheSyncer] mutate the
    receiver and talk to the collaborators. *)
Definition M (A : Type) : Type := world -> A * world.

Definition ret {A} (a : A) : M A := fun w => (a, w).

Definition bind {A B} (m : M A) (k : A -> M B) : M B :=
  fun w => let '(a, w') := m w in k a w'.

Declare Scope sync_scope.
Delimit Scope sync_scope with sync.
Notation "x <- m ;; k" := (bind m (fun x => k))
  (at level 100, m at next level, right associativity) : sync_scope.
Notation "m ;;; k" := (bind m (fun _ => k))
  (at level 100, right associativity) : sync_scope.
Local Open Scope sync_scope.

Definition getWindow : M epochWindow := fun w => (syncWindow (syncer w), w).

Definition getMaxSyncEpochs : M Z := fun w => (maxSyncEpochs (syncer w), w).

Definition setWindow (win : epochWindow) : M unit :=
  fun w =>
    (tt, {| syncer := {| maxSyncEpochs := maxSyncEpochs (syncer w);
                         syncWindow := win |};
            journal := journal w |}).

(** Perform one outgoing call: the answer is computed from the journal so
    far, then the call is appended to it. *)
Definition invoke {A} (c : call) (answer : list call -> A) : M A :=
  fun w => (answer (journal w),
            {| syncer := syncer w; journal := journal w ++ [c] |}).

Inductive interval : Type := syncIntervalNormal | syncIntervalCatchUp.

(** [logrus.Fatal] ends the process. *)
Inductive startup (A : Type) : Type :=
| Started (a : A)
| Fatal (e : error).
Arguments Started {A} a.
Arguments Fatal {A} e.

(** [mustLoadLastSyncEpoch]; the error returned is the one handed to
    [logrus.Fatal], [None] when the function returns normally. *)
Definition mustLoadLastSyncEpoch (C : collaborators) : M (option error) :=
  r <- invoke CallGetGlobalEpochRange (GetGlobalEpochRange C) ;;
  match r with
  | inr (_, maxEpoch) =>
      win <- getWindow ;;
      setWindow (reset win (u64 (maxEpoch + 1)) maxEpoch) ;;;
      ret None
  | inl err =>
      if negb (IsRecordNotFound C err) then ret (Some err) else ret None
  end.

(** [NewKVCacheSyncer]; [maxEpochs] is [viper.GetUint64("sync.maxEpochs")]. *)
Definition NewKVCacheSyncer (C : collaborators) (maxEpochs : Z)
  : startup world :=
  let w0 := {| syncer := {| maxSyncEpochs := maxEpochs;
                            syncWindow := newEpochWindow decayedEpochGapThreshold |};
               journal := [] |} in
  let '(chk, w1) := invoke CallEnsureStoreEpochDataOk (ensureStoreEpochDataOk C) w0 in
  match chk with
  | Some err => Fatal err
  | None =>
      let '(r, w2) := mustLoadLastSyncEpoch C w1 in
      match r with
      | Some err => Fatal err
      | None => Started w2
      end
  end.

Definition doCheckPoint (C : collaborators) : M (option error) :=
  invoke CallEnsureStoreEpochDataOk (ensureStoreEpochDataOk C).

Definition pivotSwitchRevert (C : collaborators) (revertTo : Z) : M (option error) :=
  invoke (CallPopn revertTo) (fun j => Popn C j revertTo).

Definition handleNewEpoch (C : collaborators) (newEpoch : Z) : M unit :=
  win <- getWindow ;;
  if peekWillPivotSwitch win newEpoch then
    err <- pivotSwitchRevert C newEpoch ;;
    match err with
    | None => win <- getWindow ;; setWindow (expandFrom win newEpoch)
    | Some _ => ret tt
    end
  else if peekWillOverflow win newEpoch then
    err <- invoke CallFlush (Flush C) ;;
    match err with
    | None => win <- getWindow ;; setWindow (reset win newEpoch newEpoch)
    | Some _ => ret tt
    end
  else
    setWindow (expandTo win newEpoch).

(** The fetch loop of [syncOnce]: [for i := uint32(0); i < syncSize; i++].
    [remaining] is the number of iterations still to run. *)
Fixpoint queryEpochs (C : collaborators) (syncFrom : Z) (remaining : nat)
    (i : Z) (epochDataSlice : list EpochData) : M (error + list EpochData) :=
  match remaining with
  | O => ret (inr epochDataSlice)
  | S remaining' =>
      let epochNo := u64 (syncFrom + i) in
      r <- invoke (CallQueryEpochData epochNo) (fun j => QueryEpochData C j epochNo) ;;
      match r with
      | inl err =>
          ret (inl (errWithMessagef err "failed to query epoch data for epoch %v" epochNo))
      | inr data =>
          queryEpochs C syncFrom remaining' (i + 1) (epochDataSlice ++ [data])
      end
  end.

(** The journal entries of [n] consecutive fetches, the first at offset [i]. *)
Fixpoint queries (syncFrom : Z) (i : Z) (n : nat) : list call :=
  match n with
  | O => []
  | S n' => CallQueryEpochData (u64 (syncFrom + i)) :: queries syncFrom (i + 1) n'
  end.

(** The node answers the fetches of offsets [0 .. length ds - 1], made one
    after the other from journal [j], with the data [ds]. *)
Definition fetchedAll (C : collaborators) (syncFrom : Z) (j : list call)
    (ds : list EpochData) : Prop :=
  forall (k : nat) (d : EpochData),
    ds !! k = Some d ->
    QueryEpochData C (j ++ queries syncFrom 0 k) (u64 (syncFrom + Z.of_nat k)) = inr d.

Definition syncOnce (C : collaborators) : M (bool * option error) :=
  win <- getWindow ;;
  if isEmpty win then ret (true, None)
  else
    maxN <- getMaxSyncEpochs ;;
    let '(syncFrom, syncSize) := peekShrinkFrom win (u32 maxN) in
    fetched <- queryEpochs C syncFrom (Z.to_nat syncSize) 0 [] ;;
    match fetched with
    | inl err => ret (false, Some err)
    | inr epochDataSlice =>
        perr <- invoke (CallPushn epochDataSlice) (fun j => Pushn C j epochDataSlice) ;;
        match perr with
        | Some err =>
            ret (false, Some (errWithMessage err "failed to write epoch data to cache store"))
        | None =>
            win <- getWindow ;;
            setWindow (fst (shrinkFrom win (u32 maxN))) ;;;
            win <- getWindow ;;
            ret (isEmpty win, None)
        end
    end.

Definition doTicker (C : collaborators) : M (interval * option error) :=
  r <- syncOnce C ;;
  match r with
  | (_, Some err) => ret (syncIntervalNormal, Some err)
  | (true, None) => ret (syncIntervalNormal, None)
  | (false, None) => ret (syncIntervalCatchUp, None)
  end.

(** The events of the select loop of [Sync]. *)
Inductive event : Type :=
| EvCheckPoint
| EvNewEpoch (newEpoch : Z)
| EvTick.

Definition step (C : collaborators) (ev : event) : M unit :=
  match ev with
  | EvCheckPoint => doCheckPoint C ;;; ret tt
  | EvNewEpoch e => handleNewEpoch C e
  | EvTick => doTicker C ;;; ret tt
  end.

(** [Sync]: the select loop, fed with what its channels deliver in the order
    the loop takes them; [None] is [ctx.Done()].  Errors of a checkpoint or a
    tick are logged and the loop goes on. *)
Fixpoint SyncLoop (C : collaborators) (signals : list (option event)) : M unit :=
  match signals with
  | [] => ret tt
  | None :: _ => ret tt
  | Some ev :: rest => step C ev ;;; SyncLoop C rest
  end.

(** A call that fetches from the node or writes epoch data to the store. *)
Definition isIngest (c : call) : bool :=
  match c with
  | CallQueryEpochData _ | CallPushn _ => true
  | _ => false
  end.

(** A call that drops data from the store. *)
Definition isDrop (c : call) : bool :=
  match c with
  | CallPopn _ | CallFlush => true
  | _ => false
  end.

(** *** Sample collaborators *)

(** A node that knows every epoch but 44, and a store that accepts all. *)
Definition sampleEpoch (e : Z) : EpochData :=
  {| Number := e; Blocks := []; Receipts := ∅; ReceiptExts := ∅ |}.

Definition sampleCollaborators : collaborators :=
  {| ensureStoreEpochDataOk := fun _ => None;
     GetGlobalEpochRange := fun _ => inr (0, 41);
     IsRecordNotFound := fun _ => false;
     QueryEpochData := fun _ e =>
       if e =? 44 then inl (errNew "epoch not found") else inr (sampleEpoch e);
     Pushn := fun _ _ => None;
     Popn := fun _ _ => None;
     Flush := fun _ => None |}.

Definition sampleSyncer (cap from to : Z) : KVCacheSyncer :=
  {| maxSyncEpochs := 2;
     syncWindow := {| capacity := cap; epochFrom := from; epochTo := to |} |}.

(** A cache store whose persisted range ends at the largest uint64. *)
Definition saturatedStore : collaborators :=
  {| ensureStoreEpochDataOk := fun _ => None;
     GetGlobalEpochRange := fun _ => inr (0, maxUint64);
     IsRecordNotFound := fun _ => false;
     QueryEpochData := fun _ e => inr (sampleEpoch e);
     Pushn := fun _ _ => None;
     Popn := fun _ _ => None;
     Flush := fun _ => None |}.

End Sync.

(** ** Package [monitor]: the stall watchdog *)

Module Monitor.

Record Config := {
  MaxStalledDuration : Z;    (* time.Duration, nanoseconds *)
  MaxAllowedLag : Z          (* uint64 *)
}.

Definition NewConfig : Config :=
  {| MaxAllowedLag := 200; MaxStalledDuration := 5 * (60 * 1000000000) |}.

Definition errSyncHeightNotGrowing : error := errNew "sync height not growing".

(** What the health counter of go-conflux-util is told, in order. *)
Inductive report : Type :=
| ReportSuccess
| ReportFailure (err : error) (heights : list Z).

Record Monitor := {
  config : Config;
  currentHeight : Z;
  lastAdvancedAt : Z;        (* time.Time, nanoseconds on the monotonic clock *)
  healthStatus : list report
}.

Definition NewMonitor (cfg : Config) : Monitor :=
  {| config := cfg; currentHeight := 0; lastAdvancedAt := 0; healthStatus := [] |}.

(** [now] is the reading of [time.Now()] taken inside the method. *)
Definition Update (now : Z) (newHeight : Z) (m : Monitor) : Monitor :=
  {| config := config m;
     currentHeight := newHeight;
     lastAdvancedAt := if currentHeight m <? newHeight then now else lastAdvancedAt m;
     healthStatus := healthStatus m |}.

Definition reset (now : Z) (m : Monitor) : Monitor :=
  {| config := config m;
     currentHeight := 0;
     lastAdvancedAt := now;
     healthStatus := healthStatus m |}.

Definition onSuccess (m : Monitor) : Monitor :=
  {| config := config m;
     currentHeight := currentHeight m;
     lastAdvancedAt := lastAdvancedAt m;
     healthStatus := healthStatus m ++ [ReportSuccess] |}.

Definition onFailure (err : error) (heights : list Z) (m : Monitor) : Monitor :=
  {| config := config m;
     currentHeight := currentHeight m;
     lastAdvancedAt := lastAdvancedAt m;
     healthStatus := healthStatus m ++ [ReportFailure err heights] |}.

(** [latest] is what [getLatestHeight()] answers, [now] the clock read by
    [time.Since]. *)
Definition checkOnce (latest : error + Z) (now : Z) (m : Monitor) : Monitor :=
  match latest with
  | inl err => onFailure (errWithMessage err "fetch latest height error") [] m
  | inr latestHeight =>
      if now - lastAdvancedAt m <? MaxStalledDuration (config m) then onSuccess m
      else if u64 (u64 (currentHeight m + MaxAllowedLag (config m)) - 1) <? latestHeight
           then onFailure errSyncHeightNotGrowing [currentHeight m; latestHeight] m
           else onSuccess m
  end.

(** Successive [Update] calls, each with its clock reading. *)
Definition updates (calls : list (Z * Z)) (m : Monitor) : Monitor :=
  foldl (fun acc c => Update (fst c) (snd c) acc) m calls.

(** [Start]: what is left of it once the cancel function and the goroutine
    are set aside is the reset of the monitor at the time of the call. *)
Definition Start (now : Z) (m : Monitor) : Monitor := reset now m.

(** What happens to a running monitor: the syncer reports a height, or the
    ticker of [run] fires and [checkOnce] is called. *)
Inductive action : Type :=
| ActUpdate (now : Z) (newHeight : Z)
| ActCheck (latest : error + Z) (now : Z).

Definition act (a : action) (m : Monitor) : Monitor :=
  match a with
  | ActUpdate now newHeight => Update now newHeight m
  | ActCheck latest now => checkOnce latest now m
  end.

Definition play (actions : list action) (m : Monitor) : Monitor :=
  foldl (fun acc a => act a acc) m actions.

Definition isCheck (a : action) : bool :=
  match a with ActCheck _ _ => true | ActUpdate _ _ => false end.

(** A monitor that saw height 1000 at time 0, and nothing since. *)
Definition stalledMonitor : Monitor :=
  {| config := NewConfig; currentHeight := 1000; lastAdvancedAt := 0;
     healthStatus := [] |}.

End Monitor.

(** ** Package [mysql]: [logStoreV2] *)

Module Mysql.
Import Store.

(** entity name for block number partitioned logs *)
Definition bnPartitionedLogEntity : string := "logs".
(** volume size per log partition *)
Definition bnPartitionedLogVolumeSize : Z := 10000000.

Record logV2 := {
  ID : Z;
  ContractID : Z;
  BlockNumber : Z;
  Epoch : Z;
  Topic0 : string;
  Topic1 : string;
  Topic2 : string;
  Topic3 : string;
  LogIndex : Z;
  Extra : string
}.

(** Modelled from the spec: the struct [bnPartition] is declared with
    [bnPartitionedStore], which is not among the sources.  Section 3:
    index, block-number span (unset for a partition without data) and
    row count. *)
Record bnPartition := {
  Index : Z;
  BnMin : option Z;
  BnMax : option Z;
  Count : Z
}.

(** The statements sent to the database and to the two helper stores. *)
Inductive dbOp : Type :=
| OpLatestPartition (entity : string)
| OpGrowPartition (entity : string)
| OpExpandBnRange (entity : string) (index bnMin bnMax : Z)
| OpShrinkBnRange (entity : string) (bn : Z)
| OpDeltaUpdateCount (entity : string) (index delta : Z)
| OpAddContractIfAbsent (address : string)
| OpBlockRange (epoch : Z)
| OpCreateInBatches (index : Z) (rows : list logV2)
| OpDeleteFrom (index : Z) (bn : Z).

(** What the store is linked against: two helpers of other packages and
    the statements that the database refuses (an I/O error is a property
    of the run, not of the data). *)
Record environment := {
  IsTxExecutedInBlock : Transaction -> bool;
  ParseCfxLog : Log -> Z -> Z -> option LogExtra -> logV2;
  faults : dbOp -> option error
}.

Record database := {
  partitions : gmap string (list bnPartition);   (* partition metadata, per entity *)
  tables : gmap Z (list logV2);                  (* partitioned log tables, by partition index *)
  contracts : gmap string Z;                     (* ContractStore: address to contract id *)
  epochBlockMap : gmap Z (Z * Z);                (* epochBlockMapStore: epoch to block range *)
  statements : list dbOp                         (* everything executed so far *)
}.

Definition setPartitions (ps : gmap string (list bnPartition)) (db : database) : database :=
  {| partitions := ps; tables := tables db; contracts := contracts db;
     epochBlockMap := epochBlockMap db; statements := statements db |}.

Definition setTables (ts : gmap Z (list logV2)) (db : database) : database :=
  {| partitions := partitions db; tables := ts; contracts := contracts db;
     epochBlockMap := epochBlockMap db; statements := statements db |}.

Definition setContracts (cs : gmap string Z) (db : database) : database :=
  {| partitions := partitions db; tables := tables db; contracts := cs;
     epochBlockMap := epochBlockMap db; statements := statements db |}.

Definition logStatement (op : dbOp) (db : database) : database :=
  {| partitions := partitions db; tables := tables db; contracts := contracts db;
     epochBlockMap := epochBlockMap db; statements := statements db ++ [op] |}.

(** A Go function returning [error]: a value, an error, or a run-time panic. *)
Inductive result (A : Type) : Type :=
| Ok (a : A)
| Fail (e : error)
| Panic.
Arguments Ok {A} a.
Arguments Fail {A} e.
Arguments Panic {A}.

Definition M (A : Type) : Type := database -> result A * database.

Definition ret {A} (a : A) : M A := fun db => (Ok a, db).

Definition fail {A} (e : error) : M A := fun db => (Fail e, db).

Definition bind {A B} (m : M A) (k : A -> M B) : M B :=
  fun db =>
    match m db with
    | (Ok a, db') => k a db'
    | (Fail e, db') => (Fail e, db')
    | (Panic, db') => (Panic, db')
    end.

Declare Scope db_scope.
Delimit Scope db_scope with db.
Notation "x <- m ;; k" := (bind m (fun x => k))
  (at level 100, m at next level, right associativity) : db_scope.
Notation "m ;;; k" := (bind m (fun _ => k))
  (at level 100, right associativity) : db_scope.
Local Open Scope db_scope.

(** [if err != nil { return errors.WithMessage(err, msg) }] *)
Definition withMessage {A} (m : M A) (msg : string) : M A :=
  fun db =>
    match m db with
    | (Fail e, db') => (Fail (errWithMessage e msg), db')
    | r => r
    end.

Definition withMessagef {A} (m : M A) (fmt : string) (arg : Z) : M A :=
  fun db =>
    match m db with
    | (Fail e, db') => (Fail (errWithMessagef e fmt arg), db')
    | r => r
    end.

(** Indexing a slice: out of range panics. *)
Definition orPanic {A} (o : option A) : M A :=
  fun db => match o with Some a => (Ok a, db) | None => (Panic, db) end.

(** One statement: it is logged, and refused if the run says so. *)
Definition execute {A} (E : environment) (op : dbOp) (body : M A) : M A :=
  fun db =>
    let db' := logStatement op db in
    match faults E op with
    | Some e => (Fail e, db')
    | None => body db'
    end.

(** A [for ... range] loop with an accumulator; an error or panic in the
    body leaves the loop. *)
Fixpoint forEach {A B} (l : list B) (body : B -> A -> M A) (a : A) : M A :=
  match l with
  | [] => ret a
  | x :: l' => a' <- body x a ;; forEach l' body a'
  end.

(** *** [bnPartitionedStore] *)

Definition byIndex (p q : bnPartition) : Prop := (Index p <= Index q)%Z.

#[global] Instance byIndex_dec : RelDecision byIndex.
Proof. intros p q. unfold byIndex. apply Z.le_dec. Defined.

Definition partitionsOf (entity : string) (db : database) : list bnPartition :=
  default [] (partitions db !! entity).

(** Modelled from the spec: [latestPartition] is a method of
    [bnPartitionedStore], not among the sources; section 4.3: the
    highest-index partition, or not-found if none exists yet. *)
Definition latestPartition (E : environment) (entity : string) : M (option bnPartition) :=
  execute E (OpLatestPartition entity)
    (fun db => (Ok (last (merge_sort byIndex (partitionsOf entity db))), db)).

(** Modelled from the spec: [growPartition] is a method of
    [bnPartitionedStore], not among the sources; section 4.3: the next
    partition (index = previous + 1, or 0 if first), its physical storage
    target, and empty metadata ([count=0], range unset). *)
Definition growPartition (E : environment) (entity : string) : M bnPartition :=
  execute E (OpGrowPartition entity)
    (fun db =>
       let ps := partitionsOf entity db in
       let index := match last (merge_sort byIndex ps) with
                    | Some p => u32 (Index p + 1)
                    | None => 0
                    end in
       let newPartition := {| Index := index; BnMin := None; BnMax := None; Count := 0 |} in
       (Ok newPartition,
        setTables (<[index := []]> (tables db))
          (setPartitions (<[entity := ps ++ [newPartition]]> (partitions db)) db))).

Definition widen (bnMin bnMax : Z) (p : bnPartition) : bnPartition :=
  {| Index := Index p;
     BnMin := Some (match BnMin p with Some lo => Z.min lo bnMin | None => bnMin end);
     BnMax := Some (match BnMax p with Some hi => Z.max hi bnMax | None => bnMax end);
     Count := Count p |}.

Definition updatePartition (index : Z) (f : bnPartition -> bnPartition)
    (ps : list bnPartition) : list bnPartition :=
  (fun p => if Index p =? index then f p else p) <$> ps.

(** Modelled from the spec: [expandBnRange] is a method of
    [bnPartitionedStore], not among the sources; section 4.3: widens the
    recorded span of a partition, the stored min only decreases, the
    stored max only increases. *)
Definition expandBnRange (E : environment) (entity : string) (index bnMin bnMax : Z) : M unit :=
  execute E (OpExpandBnRange entity index bnMin bnMax)
    (fun db =>
       (Ok tt,
        setPartitions
          (<[entity := updatePartition index (widen bnMin bnMax) (partitionsOf entity db)]>
             (partitions db)) db)).

Definition isCandidate (targetBn : Z) (p : bnPartition) : bool :=
  match BnMax p with Some hi => targetBn <=? hi | None => false end.

Definition truncateRange (targetBn : Z) (p : bnPartition) : bnPartition :=
  if isCandidate targetBn p then
    match BnMin p with
    | Some lo =>
        if targetBn <=? lo
        then {| Index := Index p; BnMin := None; BnMax := None; Count := Count p |}
        else {| Index := Index p; BnMin := Some lo; BnMax := Some (targetBn - 1); Count := Count p |}
    | None => {| Index := Index p; BnMin := None; BnMax := None; Count := Count p |}
    end
  else p.

(** Modelled from the spec: [shrinkBnRange] is a method of
    [bnPartitionedStore], not among the sources; section 4.3: returns, in
    ascending index order, every partition whose recorded max block number
    is [>= targetBn], and moves each one's recorded max to [targetBn - 1]
    (the range is cleared when nothing below the boundary is left). *)
Definition shrinkBnRange (E : environment) (entity : string) (targetBn : Z)
  : M (list bnPartition) :=
  execute E (OpShrinkBnRange entity targetBn)
    (fun db =>
       let ps := partitionsOf entity db in
       (Ok (merge_sort byIndex (filter (fun p => isCandidate targetBn p = true) ps)),
        setPartitions (<[entity := truncateRange targetBn <$> ps]> (partitions db)) db)).

Definition addCount (delta : Z) (p : bnPartition) : bnPartition :=
  {| Index := Index p; BnMin := BnMin p; BnMax := BnMax p;
     Count := Z.max 0 (Count p + delta) |}.

(** Modelled from the spec: [deltaUpdateCount] is a method of
    [bnPartitionedStore], not among the sources; section 4.3: adjusts a
    partition's row count by [delta]; the count never goes below zero. *)
Definition deltaUpdateCount (E : environment) (entity : string) (index delta : Z) : M unit :=
  execute E (OpDeltaUpdateCount entity index delta)
    (fun db =>
       (Ok tt,
        setPartitions
          (<[entity := updatePartition index (addCount delta) (partitionsOf entity db)]>
             (partitions db)) db)).

(** *** The other collaborators *)

(** Modelled from the spec: [ContractStore.AddContractIfAbsent] is not
    among the sources; sections 4.4 and 6: resolves the contract of an
    address, registering it first when it is unknown. *)
Definition AddContractIfAbsent (E : environment) (address : string) : M Z :=
  execute E (OpAddContractIfAbsent address)
    (fun db =>
       match contracts db !! address with
       | Some id => (Ok id, db)
       | None =>
           let id := Z.of_nat (size (contracts db)) + 1 in
           (Ok id, setContracts (<[address := id]> (contracts db)) db)
       end).

(** Modelled from the spec: [epochBlockMapStore.BlockRange] is not among
    the sources; section 6: [BlockRange(epoch) -> (Range{From, To}, found,
    error)]. *)
Definition BlockRange (E : environment) (epoch : Z) : M ((Z * Z) * bool) :=
  execute E (OpBlockRange epoch)
    (fun db =>
       match epochBlockMap db !! epoch with
       | Some bn => (Ok (bn, true), db)
       | None => (Ok ((0, 0), false), db)
       end).

(** [dbTx.Table(tblName).CreateInBatches(logs, ...)]: the rows are appended
    to the table of the partition; a table that does not exist is an
    error of the engine. *)
Definition createInBatches (E : environment) (index : Z) (rows : list logV2) : M unit :=
  execute E (OpCreateInBatches index rows)
    (fun db =>
       match tables db !! index with
       | Some old => (Ok tt, setTables (<[index := old ++ rows]> (tables db)) db)
       | None => (Fail (errNew "table does not exist"), db)
       end).

Definition keptBelow (bn : Z) (rows : list logV2) : list logV2 :=
  filter (fun r => (BlockNumber r < bn)%Z) rows.

(** [dbTx.Table(tblName).Where("bn >= ?", bn).Delete(logV2{})]; the value
    is [RowsAffected]. *)
Definition deleteFrom (E : environment) (index : Z) (bn : Z) : M Z :=
  execute E (OpDeleteFrom index bn)
    (fun db =>
       match tables db !! index with
       | Some old =>
           let kept := keptBelow bn old in
           (Ok (Z.of_nat (length old) - Z.of_nat (length kept)),
            setTables (<[index := kept]> (tables db)) db)
       | None => (Fail (errNew "table does not exist"), db)
       end).

(** Modelled from the spec: [EpochData.GetPivotBlock] is not among the
    sources; glossary: the pivot block is the last block of the epoch.
    Indexing an empty slice panics. *)
Definition GetPivotBlock (data : EpochData) : M Block := orPanic (last (Blocks data)).

(** *** [logStoreV2] *)

(** preparePartition create new log partitions if necessary. *)
Definition preparePartition (E : environment) (dataSlice : list EpochData) : M bnPartition :=
  r <- withMessage (latestPartition E bnPartitionedLogEntity)
         "failed to get latest log partition" ;;
  match r with
  | Some partition =>
      if bnPartitionedLogVolumeSize <=? Count partition then
        withMessage (growPartition E bnPartitionedLogEntity) "failed to grow log partition"
      else ret partition
  | None =>
      withMessage (growPartition E bnPartitionedLogEntity) "failed to grow log partition"
  end.

(** The body of the innermost loop of [Pushn]: the [k]-th log of a receipt. *)
Definition pushLog (E : environment) (bn : Z) (rcptExt : option ReceiptExtra)
    (kl : nat * Log) (logs : list logV2) : M (list logV2) :=
  let '(k, log) := kl in
  contract <- withMessage (AddContractIfAbsent E (Address log)) "failed to add contract" ;;
  let logExt :=
    match rcptExt with
    | Some ext => if bool_decide (k < length (LogExts ext))%nat
                  then mjoin (LogExts ext !! k) else None
    | None => None
    end in
  ret (logs ++ [ParseCfxLog E log contract bn logExt]).

Definition pushTransaction (E : environment) (data : EpochData) (bn : Z)
    (tx : Transaction) (logs : list logV2) : M (list logV2) :=
  match mjoin (Receipts data !! Hash tx) with
  | None => ret logs
  | Some receipt =>
      if negb (IsTxExecutedInBlock E tx) then ret logs
      else
        let rcptExt := if bool_decide (0 < size (ReceiptExts data))%nat
                       then mjoin (ReceiptExts data !! Hash tx) else None in
        forEach (imap pair (Logs receipt)) (pushLog E bn rcptExt) logs
  end.

Definition pushBlock (E : environment) (data : EpochData) (block : Block)
    (logs : list logV2) : M (list logV2) :=
  forEach (Transactions block) (pushTransaction E data (bnUint64 block)) logs.

Definition pushEpoch (E : environment) (data : EpochData) (logs : list logV2)
  : M (list logV2) :=
  forEach (Blocks data) (pushBlock E data) logs.

Definition Pushn (E : environment) (dataSlice : list EpochData) (logPartition : bnPartition)
  : M unit :=
  logs <- forEach dataSlice (pushEpoch E) [] ;;
  if bool_decide (length logs = 0%nat) then ret tt
  else
    createInBatches E (Index logPartition) logs ;;;
    first <- orPanic (dataSlice !! 0%nat) ;;
    firstBlock <- orPanic (Blocks first !! 0%nat) ;;
    let bnMin := bnUint64 firstBlock in
    lastData <- orPanic (last dataSlice) ;;
    pivot <- GetPivotBlock lastData ;;
    let bnMax := bnUint64 pivot in
    withMessage (expandBnRange E bnPartitionedLogEntity (Index logPartition) bnMin bnMax)
      "failed to expand partition bn range" ;;;
    withMessage (deltaUpdateCount E bnPartitionedLogEntity (Index logPartition)
                   (Z.of_nat (length logs)))
      "failed to delta update partition size".

(** The body of the loop of [Popn], for one partition. *)
Definition popPartition (E : environment) (bnFrom : Z) (partition : bnPartition)
    (_ : unit) : M unit :=
  rowsAffected <- deleteFrom E (Index partition) bnFrom ;;
  withMessage (deltaUpdateCount E bnPartitionedLogEntity (Index partition)
                 (- rowsAffected))
    "failed to delta update partition size".

(** Popn pops event logs until the specific epoch from db store.  The loop
    [for i := len(partitions) - 1; i >= 0; i--] walks the slice backwards. *)
Definition Popn (E : environment) (epochUntil : Z) : M unit :=
  r <- withMessagef (BlockRange E epochUntil)
         "failed to get block mapping for epoch %v" epochUntil ;;
  let '(bn, ok) := r in
  if negb ok then fail (errErrorf "no block mapping found for epoch %v" epochUntil)
  else
    partitions <- withMessage (shrinkBnRange E bnPartitionedLogEntity (fst bn))
                    "failed to shrink partition bn range" ;;
    forEach (reverse partitions) (popPartition E (fst bn)) tt.

(** *** What a batch is expected to contribute

    The log records of a batch, read off the data alone: for every epoch,
    block and transaction in order, a transaction counts when the receipt
    map of its epoch holds a receipt for its hash and the transaction passes
    the execution check; each log of such a receipt is one record to build,
    with the block number and the log's extension. *)

Definition receiptExtOf (data : EpochData) (tx : Transaction) : option ReceiptExtra :=
  mjoin (ReceiptExts data !! Hash tx).

Definition logExtOf (rcptExt : option ReceiptExtra) (k : nat) : option LogExtra :=
  ext ← rcptExt; mjoin (LogExts ext !! k).

Definition executedReceipt (E : environment) (data : EpochData) (tx : Transaction)
  : option TransactionReceipt :=
  receipt ← mjoin (Receipts data !! Hash tx);
  if IsTxExecutedInBlock E tx then Some receipt else None.

Definition item : Type := Z * Log * option LogExtra.

Definition txLogs (E : environment) (data : EpochData) (bn : Z) (tx : Transaction)
  : list item :=
  match executedReceipt E data tx with
  | Some receipt =>
      imap (fun k log => (bn, log, logExtOf (receiptExtOf data tx) k)) (Logs receipt)
  | None => []
  end.

Definition expectedLogs (E : environment) (dataSlice : list EpochData) : list item :=
  data ← dataSlice; block ← Blocks data; tx ← Transactions block;
  txLogs E data (bnUint64 block) tx.

(** The row [row] is the record of the item, for the contract id that the
    contract store [cs] holds for the log's address. *)
Definition rowOf (E : environment) (cs : gmap string Z) (row : logV2) (it : item) : Prop :=
  exists cid, cs !! Address it.1.2 = Some cid
              /\ row = ParseCfxLog E it.1.2 cid it.1.1 it.2.

(** Rows of the table of partition [index] that a revert to block [bn]
    removes. *)
Definition deleted (db : database) (bn : Z) (index : Z) : Z :=
  match tables db !! index with
  | Some rows => Z.of_nat (length rows) - Z.of_nat (length (keptBelow bn rows))
  | None => 0
  end.

(** The partitions a revert to block [bn] works on, in the order of the loop. *)
Definition worklist (db : database) (bn : Z) : list bnPartition :=
  reverse (merge_sort byIndex
             (filter (fun p => isCandidate bn p = true)
                (partitionsOf bnPartitionedLogEntity db))).

(** *** A small store to run the code on *)

Definition sampleEnvironment : environment :=
  {| IsTxExecutedInBlock := fun tx =>
       match BlockHash tx, Status tx with
       | Some _, Some st => st <? 2
       | _, _ => false
       end;
     ParseCfxLog := fun log cid bn ext =>
       {| ID := 0; ContractID := cid; BlockNumber := bn; Epoch := 0;
          Topic0 := default "" (Topics log !! 0%nat);
          Topic1 := default "" (Topics log !! 1%nat);
          Topic2 := default "" (Topics log !! 2%nat);
          Topic3 := default "" (Topics log !! 3%nat);
          LogIndex := 0;
          Extra := match ext with Some e => extraBytes e | None => "" end |};
     faults := fun _ => None |}.

Definition sampleLog (address : string) : Log :=
  {| Address := address; Topics := ["0xddf2"]; Data := "" |}.

(** One block with an executed transaction carrying two logs, a transaction
    without receipt, and one with a receipt that was not executed here. *)
Definition sampleData (epoch bn : Z) : EpochData :=
  {| Number := epoch;
     Blocks := [ {| Store.BlockNumber := bn;
                    Transactions :=
                      [ {| Hash := "0xa"; BlockHash := Some "0xb1"; Status := Some 0 |};
                        {| Hash := "0xb"; BlockHash := Some "0xb1"; Status := Some 0 |};
                        {| Hash := "0xc"; BlockHash := None; Status := None |} ] |} ];
     Receipts := {[ "0xa" := Some {| Logs := [sampleLog "cfx:c1"; sampleLog "cfx:c2"] |};
                    "0xc" := Some {| Logs := [sampleLog "cfx:c1"] |} ]};
     ReceiptExts := ∅ |}.

(** A batch in which nothing was executed. *)
Definition idleData (epoch bn : Z) : EpochData :=
  {| Number := epoch;
     Blocks := [ {| Store.BlockNumber := bn;
                    Transactions :=
                      [ {| Hash := "0xc"; BlockHash := None; Status := None |} ] |} ];
     Receipts := {[ "0xc" := Some {| Logs := [sampleLog "cfx:c1"] |} ]};
     ReceiptExts := ∅ |}.

Definition emptyDatabase : database :=
  {| partitions := ∅; tables := ∅; contracts := ∅;
     epochBlockMap := {[ 1 := (10, 10); 2 := (11, 11) ]};
     statements := [] |}.

(** The store after partition 0 was prepared and epochs 1 and 2 written. *)
Definition sampleDatabase : database :=
  (bind (preparePartition sampleEnvironment [sampleData 1 10])
     (fun p => bind (Pushn sampleEnvironment [sampleData 1 10] p)
                 (fun _ => Pushn sampleEnvironment [sampleData 2 11] p))
     emptyDatabase).2.

Definition firstPartition : bnPartition :=
  {| Index := 0; BnMin := None; BnMax := None; Count := 0 |}.

(** The empty store after its first partition was prepared. *)
Definition preparedDatabase : database :=
  (preparePartition sampleEnvironment [] emptyDatabase).2.

(** What a run of (a part of) the collecting loops may end in: on success
    the accumulator grew by one row per expected item, nothing but the
    contract store and the statement log changed, and nothing changed at all
    when no item was expected; an error needs an item; no panic. *)
Definition collected (E : environment) (items : list item) (db : database)
    (logs : list logV2) (out : result (list logV2) * database) : Prop :=
  match out with
  | (Ok logs', db') =>
      (exists rows, logs' = logs ++ rows /\ Forall2 (rowOf E (contracts db')) rows items)
      /\ contracts db ⊆ contracts db'
      /\ partitions db' = partitions db
      /\ tables db' = tables db
      /\ epochBlockMap db' = epochBlockMap db
      /\ (items = [] -> db' = db)
  | (Fail _, _) => items <> []
  | (Panic, _) => False
  end.

(** *** The statements of the collecting loops *)

Definition addressOf (it : item) : string := Address it.1.2.

(** One contract look-up per record to build, in the order of the loops. *)
Definition lookups (items : list item) : list dbOp :=
  (fun it => OpAddContractIfAbsent (addressOf it)) <$> items.

Definition accepted (E : environment) (it : item) : Prop :=
  faults E (OpAddContractIfAbsent (addressOf it)) = None.

(** What a run of (a part of) the collecting loops leaves in the store:
    tables, partition metadata and block mapping are never written; the
    statements are the contract look-ups, up to and including the first one
    refused, whose error comes back wrapped; no panic. *)
Definition attempted (E : environment) (items : list item) (db : database)
    (out : result (list logV2) * database) : Prop :=
  tables out.2 = tables db
  /\ partitions out.2 = partitions db
  /\ epochBlockMap out.2 = epochBlockMap db
  /\ match out.1 with
     | Ok _ =>
         statements out.2 = statements db ++ lookups items
         /\ Forall (accepted E) items
     | Fail err =>
         exists asked it rest e,
           items = asked ++ it :: rest
           /\ Forall (accepted E) asked
           /\ faults E (OpAddContractIfAbsent (addressOf it)) = Some e
           /\ err = errWithMessage e "failed to add contract"
           /\ statements out.2 = statements db ++ lookups (asked ++ [it])
     | Panic => False
     end.

(** *** What a revert may do to the store *)

(** [db'] is [db] after rows at or above block [bn] were removed from some
    tables: contracts, block mapping and the set of partitions are those of
    [db], no table appeared or vanished, no row was added, and every row
    below [bn] is still there. *)
Definition trimmed (bn : Z) (db db' : database) : Prop :=
  contracts db' = contracts db
  /\ epochBlockMap db' = epochBlockMap db
  /\ Index <$> partitionsOf bnPartitionedLogEntity db' =
     Index <$> partitionsOf bnPartitionedLogEntity db
  /\ (forall i, keptBelow bn <$> tables db' !! i = keptBelow bn <$> tables db !! i)
  /\ (forall i rows', tables db' !! i = Some rows' ->
        exists rows, tables db !! i = Some rows /\ sublist rows' rows).

(** The sample environment over a database that refuses some statements. *)
Definition refusing (refused : dbOp -> bool) : environment :=
  {| IsTxExecutedInBlock := IsTxExecutedInBlock sampleEnvironment;
     ParseCfxLog := ParseCfxLog sampleEnvironment;
     faults := fun op => if refused op then Some (errNew "connection lost") else None |}.

Definition isDeltaUpdate (op : dbOp) : bool :=
  match op with OpDeltaUpdateCount _ _ _ => true | _ => false end.

Definition isLookupOf (address : string) (op : dbOp) : bool :=
  match op with
  | OpAddContractIfAbsent a => bool_decide (a = address)
  | _ => false
  end.

Definition isDelete (op : dbOp) : bool :=
  match op with OpDeleteFrom _ _ => true | _ => false end.

(** An epoch without blocks. *)
Definition blocklessData (epoch : Z) : EpochData :=
  {| Number := epoch; Blocks := []; Receipts := ∅; ReceiptExts := ∅ |}.

End Mysql.

(** * Properties of [KVCacheSyncer] *)

Section KVCacheSyncerFacts.
Import Store EpochWindow Sync.
Local Open Scope sync_scope.

Implicit Types (C : collaborators) (s : KVCacheSyncer) (j : list call) (w : world).

Lemma queries_snoc syncFrom n : forall i,
  queries syncFrom i (S n) =
  queries syncFrom i n ++ [CallQueryEpochData (u64 (syncFrom + (i + Z.of_nat n)))].
Proof.
  induction n as [|n IH]; intros i.
  - cbn. by rewrite Z.add_0_r.
  - change (queries syncFrom i (S (S n)))
      with (CallQueryEpochData (u64 (syncFrom + i)) :: queries syncFrom (i + 1) (S n)).
    rewrite IH. cbn [queries app].
    by replace (i + 1 + Z.of_nat n) with (i + Z.of_nat (S n)) by lia.
Qed.

(** The fetch loop never touches the syncer itself. *)
Lemma queryEpochs_syncer C syncFrom n : forall i acc w,
  syncer (queryEpochs C syncFrom n i acc w).2 = syncer w.
Proof.
  induction n as [|n IH]; intros i acc w; [done|].
  cbn [queryEpochs]. unfold bind, invoke, ret.
  destruct (QueryEpochData C (journal w) (u64 (syncFrom + i))); [done|].
  by rewrite IH.
Qed.

(** All fetches answered: the loop returns the data in order. *)
Lemma queryEpochs_ok C syncFrom ds : forall i acc w,
  (forall (k : nat) d, ds !! k = Some d ->
     QueryEpochData C (journal w ++ queries syncFrom i k)
       (u64 (syncFrom + (i + Z.of_nat k))) = inr d) ->
  queryEpochs C syncFrom (length ds) i acc w =
  (inr (acc ++ ds),
   {| syncer := syncer w; journal := journal w ++ queries syncFrom i (length ds) |}).
Proof.
  induction ds as [|d ds IH]; intros i acc w Hq.
  - cbn. rewrite !app_nil_r. by destruct w.
  - cbn [length queryEpochs]. unfold bind, invoke.
    pose proof (Hq 0%nat d eq_refl) as H0. cbn in H0.
    rewrite app_nil_r, Z.add_0_r in H0. rewrite H0.
    rewrite IH.
    + cbn [syncer journal queries]. by rewrite <- !app_assoc.
    + intros k d' Hk. cbn [journal]. rewrite <- app_assoc. cbn [app].
      specialize (Hq (S k) d' Hk). cbn [queries] in Hq.
      rewrite <- Hq. do 2 f_equal. lia.
Qed.

(** The first refused fetch ends the loop with its error. *)
Lemma queryEpochs_fail C syncFrom ds err : forall n i acc w,
  (length ds < n)%nat ->
  (forall (k : nat) d, ds !! k = Some d ->
     QueryEpochData C (journal w ++ queries syncFrom i k)
       (u64 (syncFrom + (i + Z.of_nat k))) = inr d) ->
  QueryEpochData C (journal w ++ queries syncFrom i (length ds))
    (u64 (syncFrom + (i + Z.of_nat (length ds)))) = inl err ->
  queryEpochs C syncFrom n i acc w =
  (inl (errWithMessagef err "failed to query epoch data for epoch %v"
          (u64 (syncFrom + (i + Z.of_nat (length ds))))),
   {| syncer := syncer w;
      journal := journal w ++ queries syncFrom i (S (length ds)) |}).
Proof.
  induction ds as [|d ds IH]; intros n i acc w Hn Hq Herr.
  - destruct n as [|n]; [cbn in Hn; lia|].
    cbn [length queries] in *. rewrite app_nil_r, Z.add_0_r in *.
    cbn [queryEpochs]. unfold bind, invoke, ret. by rewrite Herr.
  - destruct n as [|n]; [cbn in Hn; lia|].
    cbn [length] in *. cbn [queryEpochs]. unfold bind, invoke.
    pose proof (Hq 0%nat d eq_refl) as H0. cbn in H0.
    rewrite app_nil_r, Z.add_0_r in H0. rewrite H0.
    rewrite (IH n (i + 1) (acc ++ [d])).
    + cbn [syncer journal]. rewrite <- !app_assoc.
      replace (i + 1 + Z.of_nat (length ds)) with (i + Z.of_nat (S (length ds))) by lia.
      done.
    + lia.
    + intros k d' Hk. cbn [journal]. rewrite <- app_assoc. cbn [app].
      specialize (Hq (S k) d' Hk). cbn [queries] in Hq.
      rewrite <- Hq. do 2 f_equal. lia.
    + cbn [journal]. rewrite <- app_assoc. cbn [app].
      cbn [queries] in Herr. rewrite <- Herr. do 2 f_equal. lia.
Qed.

(** Whatever the collaborators answer, a changed window means that the last
    thing [syncOnce] did was a [Pushn] that was accepted. *)
Lemma syncOnce_moves_only_after_pushn C w r w' :
  syncOnce C w = (r, w') ->
  syncWindow (syncer w') <> syncWindow (syncer w) ->
  exists j0 ds, journal w' = j0 ++ [CallPushn ds] /\ Pushn C j0 ds = None /\ r.2 = None.
Proof.
  unfold syncOnce, bind, getWindow, getMaxSyncEpochs, ret.
  destruct (isEmpty (syncWindow (syncer w))).
  { intros [= <- <-] Hne. done. }
  destruct (peekShrinkFrom _ _) as [syncFrom syncSize].
  pose proof (queryEpochs_syncer C syncFrom (Z.to_nat syncSize) 0 [] w) as Hs.
  destruct (queryEpochs _ _ _ _ _ _) as [[err|ds] w1]; cbn [snd] in Hs.
  { intros [= <- <-] Hne. by rewrite Hs in Hne. }
  unfold invoke.
  destruct (Pushn C (journal w1) ds) as [err|] eqn:Hp.
  { intros [= <- <-] Hne. cbn in Hne. by rewrite Hs in Hne. }
  intros [= <- <-] _. cbn. eauto.
Qed.

(** C1. A tick on a non-empty window: the window moves (by [shrinkFrom]) only
    after the cache store accepted the batch in [Pushn].  The first fetch
    that fails aborts the whole batch with an error, no [Pushn] is issued
    and the syncer is exactly as before; a refused [Pushn] also leaves the
    syncer as it was. *)
Theorem syncOnce_commits_after_pushn C s j :
  isEmpty (syncWindow s) = false ->
  let maxCount := u32 (maxSyncEpochs s) in
  let syncFrom := (peekShrinkFrom (syncWindow s) maxCount).1 in
  let syncSize := Z.to_nat (peekShrinkFrom (syncWindow s) maxCount).2 in
  let w := {| syncer := s; journal := j |} in
  (forall ds err,
     (length ds < syncSize)%nat ->
     fetchedAll C syncFrom j ds ->
     QueryEpochData C (j ++ queries syncFrom 0 (length ds))
       (u64 (syncFrom + Z.of_nat (length ds))) = inl err ->
     syncOnce C w =
     ((false, Some (errWithMessagef err "failed to query epoch data for epoch %v"
                      (u64 (syncFrom + Z.of_nat (length ds))))),
      {| syncer := s; journal := j ++ queries syncFrom 0 (S (length ds)) |}))
  /\ (forall ds err,
       length ds = syncSize ->
       fetchedAll C syncFrom j ds ->
       Pushn C (j ++ queries syncFrom 0 syncSize) ds = Some err ->
       syncOnce C w =
       ((false, Some (errWithMessage err "failed to write epoch data to cache store")),
        {| syncer := s;
           journal := j ++ queries syncFrom 0 syncSize ++ [CallPushn ds] |}))
  /\ (forall ds,
       length ds = syncSize ->
       fetchedAll C syncFrom j ds ->
       Pushn C (j ++ queries syncFrom 0 syncSize) ds = None ->
       let win' := (shrinkFrom (syncWindow s) maxCount).1 in
       syncOnce C w =
       ((isEmpty win', None),
        {| syncer := {| maxSyncEpochs := maxSyncEpochs s; syncWindow := win' |};
           journal := j ++ queries syncFrom 0 syncSize ++ [CallPushn ds] |}))
  /\ (forall r w',
       syncOnce C w = (r, w') ->
       syncWindow (syncer w') <> syncWindow s ->
       exists j0 ds,
         journal w' = j0 ++ [CallPushn ds] /\ Pushn C j0 ds = None /\ r.2 = None).
Proof.
  intros Hne maxCount syncFrom syncSize w.
  assert (Hhead :
             syncOnce C w =
             (fetched <- queryEpochs C syncFrom syncSize 0 [] ;;
              match fetched with
              | inl err => ret (false, Some err)
              | inr epochDataSlice =>
                  perr <- invoke (CallPushn epochDataSlice)
                            (fun j => Pushn C j epochDataSlice) ;;
                  match perr with
                  | Some err =>
                      ret (false, Some (errWithMessage err
                                          "failed to write epoch data to cache store"))
                  | None =>
                      win <- getWindow ;;
                      setWindow (shrinkFrom win maxCount).1 ;;;
                      win <- getWindow ;;
                      ret (isEmpty win, None)
                  end
              end) w).
  { unfold syncOnce at 1, bind at 1 2, getWindow at 1, getMaxSyncEpochs at 1.
    cbn [syncer w]. rewrite Hne. subst syncFrom syncSize maxCount.
    by destruct (peekShrinkFrom _ _). }
  repeat split.
  - intros ds err Hlen Hds Herr. rewrite Hhead. unfold bind at 1.
    rewrite (queryEpochs_fail C syncFrom ds err); [done|done|..].
    + intros k d Hk. rewrite Z.add_0_l. by apply Hds.
    + by rewrite Z.add_0_l.
  - intros ds err Hlen Hds Herr. rewrite Hhead. unfold bind at 1.
    rewrite <- Hlen in *. rewrite (queryEpochs_ok C syncFrom ds).
    + cbn [app syncer journal w]. unfold bind, invoke, ret. cbn [journal].
      rewrite Herr. by rewrite <- app_assoc.
    + intros k d Hk. rewrite Z.add_0_l. by apply Hds.
  - intros ds Hlen Hds Hok win'. rewrite Hhead. unfold bind at 1.
    rewrite <- Hlen in *. rewrite (queryEpochs_ok C syncFrom ds).
    + cbn [app syncer journal w]. unfold bind, invoke, ret, getWindow, setWindow.
      cbn [journal syncer syncWindow maxSyncEpochs].
      rewrite Hok. by rewrite <- app_assoc.
    + intros k d Hk. rewrite Z.add_0_l. by apply Hds.
  - intros r w' Hrun Hmoved.
    by apply (syncOnce_moves_only_after_pushn C w r w').
Qed.

Lemma syncOnce_commits_after_pushn_witness :
  syncOnce sampleCollaborators {| syncer := sampleSyncer 100000 42 50; journal := [] |} =
  ((false, None),
   {| syncer := sampleSyncer 100000 44 50;
      journal := [CallQueryEpochData 42; CallQueryEpochData 43;
                  CallPushn [sampleEpoch 42; sampleEpoch 43]] |}).
Proof.
  destruct (syncOnce_commits_after_pushn sampleCollaborators (sampleSyncer 100000 42 50) [])
    as (_ & _ & Hok & _); [reflexivity|].
  apply (Hok [sampleEpoch 42; sampleEpoch 43]); [reflexivity| |reflexivity].
  intros [|[|k]] d; cbn; intros [= <-]; reflexivity.
Defined.

(** C2. A notification [e] that the window sees as a pivot switch: the
    syncer asks the cache store to revert with [Popn e], and nothing else;
    an accepted revert makes the window [{e, e}] (by [expandFrom]), a failed
    one leaves the syncer as it was.  The window [{50, 80}] receiving 60
    becomes [{60, 60}]. *)
Theorem handleNewEpoch_pivot_switch C j :
  (forall s e,
     peekWillPivotSwitch (syncWindow s) e = true ->
     let w' := (handleNewEpoch C e {| syncer := s; journal := j |}).2 in
     journal w' = j ++ [CallPopn e]
     /\ (Popn C j e = None ->
         syncWindow (syncer w') = expandFrom (syncWindow s) e
         /\ epochFrom (syncWindow (syncer w')) = e
         /\ epochTo (syncWindow (syncer w')) = e)
     /\ (forall err, Popn C j e = Some err -> syncer w' = s))
  /\ (forall cap maxN,
       let s := {| maxSyncEpochs := maxN;
                   syncWindow := {| capacity := cap; epochFrom := 50; epochTo := 80 |} |} in
       peekWillPivotSwitch (syncWindow s) 60 = true
       /\ (Popn C j 60 = None ->
           syncWindow (syncer (handleNewEpoch C 60 {| syncer := s; journal := j |}).2) =
           {| capacity := cap; epochFrom := 60; epochTo := 60 |})).
Proof.
  assert (Hgen : forall s e,
             peekWillPivotSwitch (syncWindow s) e = true ->
             handleNewEpoch C e {| syncer := s; journal := j |} =
             (tt, {| syncer :=
                       match Popn C j e with
                       | None => {| maxSyncEpochs := maxSyncEpochs s;
                                    syncWindow := expandFrom (syncWindow s) e |}
                       | Some _ => s
                       end;
                     journal := j ++ [CallPopn e] |})).
  { intros s e Hpivot.
    unfold handleNewEpoch, bind, getWindow, pivotSwitchRevert, invoke, setWindow, ret.
    cbn [syncer journal syncWindow maxSyncEpochs]. rewrite Hpivot.
    cbn [syncer journal syncWindow maxSyncEpochs].
    by destruct (Popn C j e). }
  split.
  - intros s e Hpivot w'. subst w'. rewrite (Hgen s e Hpivot). cbn [snd journal syncer].
    split; [done|]. split.
    + by intros ->.
    + by intros err ->.
  - intros cap maxN s. split; [done|].
    intros Hok. rewrite (Hgen s 60 eq_refl). cbn [snd syncer]. by rewrite Hok.
Qed.

Lemma handleNewEpoch_pivot_switch_witness :
  (handleNewEpoch sampleCollaborators 60
     {| syncer := sampleSyncer 100000 50 80; journal := [] |}).2 =
  {| syncer := sampleSyncer 100000 60 60; journal := [CallPopn 60] |}.
Proof.
  destruct (proj1 (handleNewEpoch_pivot_switch sampleCollaborators [])
              (sampleSyncer 100000 50 80) 60 eq_refl) as (Hj & Hok & _).
  destruct (Hok eq_refl) as (Hw & _).
  reflexivity.
Defined.

(** C3. A notification [e] that is no pivot switch but overflows the window:
    the syncer calls [Flush] once, and nothing else; an accepted flush makes
    the window [{e, e}] (by [reset]), a failed one leaves the syncer as it
    was.  The window [{100, 100}] with decay threshold 5 receiving 106
    becomes [{106, 106}] after one [Flush]. *)
Theorem handleNewEpoch_overflow C j :
  (forall s e,
     peekWillPivotSwitch (syncWindow s) e = false ->
     peekWillOverflow (syncWindow s) e = true ->
     let w' := (handleNewEpoch C e {| syncer := s; journal := j |}).2 in
     journal w' = j ++ [CallFlush]
     /\ (Flush C j = None ->
         syncWindow (syncer w') = reset (syncWindow s) e e
         /\ epochFrom (syncWindow (syncer w')) = e
         /\ epochTo (syncWindow (syncer w')) = e)
     /\ (forall err, Flush C j = Some err -> syncer w' = s))
  /\ (forall maxN,
       let s := {| maxSyncEpochs := maxN;
                   syncWindow := {| capacity := 5; epochFrom := 100; epochTo := 100 |} |} in
       let w' := (handleNewEpoch C 106 {| syncer := s; journal := j |}).2 in
       peekWillPivotSwitch (syncWindow s) 106 = false
       /\ peekWillOverflow (syncWindow s) 106 = true
       /\ journal w' = j ++ [CallFlush]
       /\ (Flush C j = None ->
           syncWindow (syncer w') =
           {| capacity := 5; epochFrom := 106; epochTo := 106 |})).
Proof.
  assert (Hgen : forall s e,
             peekWillPivotSwitch (syncWindow s) e = false ->
             peekWillOverflow (syncWindow s) e = true ->
             handleNewEpoch C e {| syncer := s; journal := j |} =
             (tt, {| syncer :=
                       match Flush C j with
                       | None => {| maxSyncEpochs := maxSyncEpochs s;
                                    syncWindow := reset (syncWindow s) e e |}
                       | Some _ => s
                       end;
                     journal := j ++ [CallFlush] |})).
  { intros s e Hpivot Hover.
    unfold handleNewEpoch, bind, getWindow, invoke, setWindow, ret.
    cbn [syncer journal syncWindow maxSyncEpochs]. rewrite Hpivot, Hover.
    cbn [syncer journal syncWindow maxSyncEpochs].
    by destruct (Flush C j). }
  split.
  - intros s e Hpivot Hover w'. subst w'. rewrite (Hgen s e Hpivot Hover).
    cbn [snd journal syncer]. split; [done|]. split.
    + by intros ->.
    + by intros err ->.
  - intros maxN s w'. subst w'. rewrite (Hgen s 106 eq_refl eq_refl).
    cbn [snd journal syncer]. repeat split. by intros ->.
Qed.

Lemma handleNewEpoch_overflow_witness :
  (handleNewEpoch sampleCollaborators 106
     {| syncer := sampleSyncer 5 100 100; journal := [] |}).2 =
  {| syncer := sampleSyncer 5 106 106; journal := [CallFlush] |}.
Proof.
  destruct (proj1 (handleNewEpoch_overflow sampleCollaborators [])
              (sampleSyncer 5 100 100) 106 eq_refl eq_refl) as (Hj & Hok & _).
  destruct (Hok eq_refl) as (Hw & _).
  reflexivity.
Defined.

(** C5, as the code has it.  At startup, once the consistency check passed:
    if the cache store reports a maximum synced epoch [M] below the largest
    uint64, the window is reset to [{M+1, M}], which is empty and whose next
    epoch to consume is [M+1]; on a not-found error the window keeps its zero
    state; any other error is fatal.  ([maxEpoch+1] is computed in uint64
    and wraps to 0 for [M = 2^64-1].) *)
Theorem mustLoadLastSyncEpoch_startup C maxEpochs :
  ensureStoreEpochDataOk C [] = None ->
  let j := [CallEnsureStoreEpochDataOk] in
  (forall minEpoch M,
     GetGlobalEpochRange C j = inr (minEpoch, M) ->
     0 <= M < maxUint64 ->
     let win := {| capacity := decayedEpochGapThreshold;
                   epochFrom := M + 1; epochTo := M |} in
     NewKVCacheSyncer C maxEpochs =
     Started {| syncer := {| maxSyncEpochs := maxEpochs; syncWindow := win |};
                journal := j ++ [CallGetGlobalEpochRange] |}
     /\ isEmpty win = true
     /\ peekShrinkFrom win (u32 maxEpochs) = (M + 1, 0))
  /\ (forall err,
       GetGlobalEpochRange C j = inl err ->
       IsRecordNotFound C err = true ->
       NewKVCacheSyncer C maxEpochs =
       Started {| syncer := {| maxSyncEpochs := maxEpochs;
                               syncWindow := newEpochWindow decayedEpochGapThreshold |};
                  journal := j ++ [CallGetGlobalEpochRange] |})
  /\ (forall err,
       GetGlobalEpochRange C j = inl err ->
       IsRecordNotFound C err = false ->
       NewKVCacheSyncer C maxEpochs = Fatal err)
  /\ (forall w err,
       GetGlobalEpochRange C (journal w) = inl err ->
       IsRecordNotFound C err = true ->
       mustLoadLastSyncEpoch C w =
       (None, {| syncer := syncer w;
                 journal := journal w ++ [CallGetGlobalEpochRange] |})).
Proof.
  intros Hchk j.
  assert (Hnew : NewKVCacheSyncer C maxEpochs =
                 match GetGlobalEpochRange C j with
                 | inr (_, maxEpoch) =>
                     Started {| syncer :=
                                  {| maxSyncEpochs := maxEpochs;
                                     syncWindow :=
                                       {| capacity := decayedEpochGapThreshold;
                                          epochFrom := u64 (maxEpoch + 1);
                                          epochTo := maxEpoch |} |};
                                journal := j ++ [CallGetGlobalEpochRange] |}
                 | inl err =>
                     if IsRecordNotFound C err
                     then Started {| syncer :=
                                       {| maxSyncEpochs := maxEpochs;
                                          syncWindow :=
                                            newEpochWindow decayedEpochGapThreshold |};
                                     journal := j ++ [CallGetGlobalEpochRange] |}
                     else Fatal err
                 end).
  { unfold NewKVCacheSyncer, invoke. cbn [journal syncer]. rewrite Hchk.
    unfold mustLoadLastSyncEpoch, bind, invoke. cbn [journal syncer app].
    fold j. destruct (GetGlobalEpochRange C j) as [err|[mn mx]].
    - by destruct (IsRecordNotFound C err).
    - done. }
  split; [|split; [|split]].
  - intros minEpoch M Hrange HM win. split; [|split].
    + rewrite Hnew, Hrange. subst win. unfold u64, maxUint64 in *.
      by rewrite Z.mod_small by lia.
    + unfold isEmpty. cbn. lia.
    + unfold peekShrinkFrom, isEmpty. cbn.
      by destruct (Z.ltb_spec M (M + 1)); [|lia].
  - intros err Herr Hnf. by rewrite Hnew, Herr, Hnf.
  - intros err Herr Hnf. by rewrite Hnew, Herr, Hnf.
  - intros w err Herr Hnf. unfold mustLoadLastSyncEpoch, bind, invoke.
    by rewrite Herr, Hnf.
Qed.

Lemma mustLoadLastSyncEpoch_startup_witness :
  NewKVCacheSyncer sampleCollaborators 2 =
  Started {| syncer := sampleSyncer 100000 42 41;
             journal := [CallEnsureStoreEpochDataOk; CallGetGlobalEpochRange] |}.
Proof.
  destruct (mustLoadLastSyncEpoch_startup sampleCollaborators 2 eq_refl) as (Hok & _).
  destruct (Hok 0 41 eq_refl) as (Hrun & _); [unfold maxUint64; lia|].
  exact Hrun.
Defined.

(** C5 as stated fails at [M = 2^64-1]: [maxEpoch+1] wraps to 0, the window
    becomes [{0, 2^64-1}], which is not empty. *)
Lemma mustLoadLastSyncEpoch_wraps :
  NewKVCacheSyncer saturatedStore 2 =
  Started {| syncer := {| maxSyncEpochs := 2;
                          syncWindow := {| capacity := decayedEpochGapThreshold;
                                           epochFrom := 0;
                                           epochTo := 18446744073709551615 |} |};
             journal := [CallEnsureStoreEpochDataOk; CallGetGlobalEpochRange] |}
  /\ isEmpty {| capacity := decayedEpochGapThreshold;
                epochFrom := 0; epochTo := 18446744073709551615 |} = false
  /\ (0 =? 18446744073709551615 + 1) = false.
Proof. repeat split. Qed.

End KVCacheSyncerFacts.

(** * Properties of the stall [Monitor] *)

Section MonitorFacts.
Import Monitor.

Implicit Types (m : Monitor) (now h : Z).

Lemma updates_snoc calls now h m :
  updates (calls ++ [(now, h)]) m = Update now h (updates calls m).
Proof. unfold updates. by rewrite foldl_app. Qed.




(** C9, as the code has it.  [Update h] stores [h] whatever the previous
    height was, so after a sequence of calls the stored height is the last
    one given; the advance timestamp is refreshed exactly when [h] strictly
    exceeds the previously stored height. *)
Theorem Update_records_height m now h :
  currentHeight (Update now h m) = h
  /\ (currentHeight m < h -> lastAdvancedAt (Update now h m) = now)
  /\ (h <= currentHeight m -> lastAdvancedAt (Update now h m) = lastAdvancedAt m)
  /\ (forall calls,
       currentHeight (updates calls m) =
       default (currentHeight m) (last (snd <$> calls))).
Proof.
  split; [done|]. split; [|split].
  - intros Hup. cbn. by destruct (Z.ltb_spec (currentHeight m) h); [|lia].
  - intros Hdown. cbn. by destruct (Z.ltb_spec (currentHeight m) h); [lia|].
  - intros calls. induction calls as [|[t x] calls IH] using rev_ind; [done|].
    rewrite updates_snoc, fmap_app.
    change (snd <$> [(t, x)]) with [x]. by rewrite last_snoc.
Qed.

Lemma Update_records_height_witness :
  lastAdvancedAt (Update 7 1001 stalledMonitor) = 7
  /\ lastAdvancedAt (Update 7 1000 stalledMonitor) = 0.
Proof.
  destruct (Update_records_height stalledMonitor 7 1001) as (_ & Hup & _).
  destruct (Update_records_height stalledMonitor 7 1000) as (_ & _ & Hdown & _).
  split; [apply Hup; cbn; lia | apply Hdown; cbn; lia].
Defined.

(** C9 as stated fails: [Update 5] followed by [Update 3] leaves the stored
    height at 3, below the 5 it held before. *)
Lemma Update_height_decreases :
  currentHeight (updates [(1, 5)] (NewMonitor NewConfig)) = 5
  /\ currentHeight (updates [(1, 5); (2, 3)] (NewMonitor NewConfig)) = 3
  /\ (3 <? 5) = true.
Proof. repeat split. Qed.

End MonitorFacts.

(** * Properties of [logStoreV2] *)

Section LogStoreV2Facts.
Import Store Mysql.
Local Open Scope db_scope.

Implicit Types (E : environment) (db : database) (logs rows : list logV2)
  (items : list item).

(** ** Collecting the records of a batch *)

Lemma rowOf_weaken E (cs cs' : gmap string Z) row it :
  cs ⊆ cs' -> rowOf E cs row it -> rowOf E cs' row it.
Proof.
  intros Hsub (cid & Hcid & Hrow). exists cid. split; [|done].
  by eapply lookup_weaken.
Qed.

Lemma collected_nil E db logs : collected E [] db logs (Ok logs, db).
Proof.
  cbn. split; [|done]. exists []. split; [by rewrite app_nil_r | constructor].
Qed.

Lemma collected_bind E items1 items2 db logs
    (m : M (list logV2)) (k : list logV2 -> M (list logV2)) :
  collected E items1 db logs (m db) ->
  (forall logs' db', collected E items2 db' logs' (k logs' db')) ->
  collected E (items1 ++ items2) db logs (bind m k db).
Proof.
  intros Hm Hk. unfold bind. destruct (m db) as [[logs1|e|] db1]; cbn in Hm.
  - destruct Hm as ((rows1 & -> & Hrows1) & Hsub1 & Hp1 & Ht1 & Hb1 & Hnil1).
    specialize (Hk (logs ++ rows1) db1).
    destruct (k (logs ++ rows1) db1) as [[logs2|e|] db2]; cbn in Hk |- *.
    + destruct Hk as ((rows2 & -> & Hrows2) & Hsub2 & Hp2 & Ht2 & Hb2 & Hnil2).
      split; [|split; [|split; [|split; [|split]]]].
      * exists (rows1 ++ rows2). split; [by rewrite app_assoc|].
        apply Forall2_app; [|done].
        eapply Forall2_impl; [exact Hrows1|].
        intros row it. by apply rowOf_weaken.
      * by etrans.
      * congruence.
      * congruence.
      * congruence.
      * intros [-> ->]%app_eq_nil. rewrite Hnil2, Hnil1; done.
    + intros [_ ->]%app_eq_nil. done.
    + done.
  - intros [-> _]%app_eq_nil. done.
  - done.
Qed.

Lemma collected_forEach {B} E (f : B -> list item)
    (body : B -> list logV2 -> M (list logV2)) :
  (forall x logs db, collected E (f x) db logs (body x logs db)) ->
  forall l logs db, collected E (l ≫= f) db logs (forEach l body logs db).
Proof.
  intros Hbody l. induction l as [|x l IH]; intros logs db.
  - apply collected_nil.
  - cbn [forEach mbind list_bind]. change (mbind f l) with (l ≫= f).
    apply collected_bind; [apply Hbody | intros; apply IH].
Qed.

Lemma collected_pushLog E bn rcptExt k log db logs :
  collected E [(bn, log, logExtOf rcptExt k)] db logs
    (pushLog E bn rcptExt (k, log) logs db).
Proof.
  assert (Hext : match rcptExt with
                 | Some ext => if bool_decide (k < length (LogExts ext))%nat
                               then mjoin (LogExts ext !! k) else None
                 | None => None
                 end = logExtOf rcptExt k).
  { destruct rcptExt as [ext|]; [|done]. cbn. case_bool_decide; [done|].
    by rewrite lookup_ge_None_2 by lia. }
  unfold pushLog, bind, withMessage, AddContractIfAbsent, execute, ret.
  rewrite Hext. destruct (faults E (OpAddContractIfAbsent (Address log))); [done|].
  cbn [contracts logStatement].
  destruct (contracts db !! Address log) as [id|] eqn:Hid; cbn.
  - split; [|done]. exists [ParseCfxLog E log id bn (logExtOf rcptExt k)].
    split; [done|]. constructor; [|constructor]. by exists id.
  - split; [|split; [|done]].
    + eexists [_]. split; [done|]. constructor; [|constructor].
      eexists. split; [|done]. cbn. apply lookup_insert_eq.
    + by apply insert_subseteq.
Qed.

Lemma imap_shift_bind {A B} (g : nat -> A -> B) (l : list A) : forall h : nat -> nat,
  imap (fun k x => (h k, x)) l ≫= (fun kx => [g kx.1 kx.2]) =
  imap (fun k x => g (h k) x) l.
Proof.
  induction l as [|x l IH]; intros h; [done|].
  cbn. f_equal. apply (IH (h ∘ S)).
Qed.

Lemma imap_pair_bind {A B} (g : nat -> A -> B) (l : list A) :
  imap pair l ≫= (fun kx => [g kx.1 kx.2]) = imap g l.
Proof. apply (imap_shift_bind g l id). Qed.

Lemma collected_pushTransaction E data bn tx db logs :
  collected E (txLogs E data bn tx) db logs (pushTransaction E data bn tx logs db).
Proof.
  assert (Hext : (if bool_decide (0 < size (ReceiptExts data))%nat
                  then mjoin (ReceiptExts data !! Hash tx) else None)
                 = receiptExtOf data tx).
  { unfold receiptExtOf. case_bool_decide as Hsz; [done|].
    assert (ReceiptExts data = ∅) as -> by (apply map_size_empty_iff; lia).
    by rewrite lookup_empty. }
  unfold pushTransaction, txLogs, executedReceipt.
  destruct (mjoin (Receipts data !! Hash tx)) as [receipt|]; cbn;
    [|apply collected_nil].
  destruct (IsTxExecutedInBlock E tx); cbn; [|apply collected_nil].
  rewrite Hext.
  rewrite <- (imap_pair_bind
                (fun k log => (bn, log, logExtOf (receiptExtOf data tx) k))).
  apply collected_forEach. intros [k log] logs' db'. apply collected_pushLog.
Qed.

(** The three outer loops of [Pushn] against [expectedLogs]. *)
Lemma collected_batch E dataSlice db logs :
  collected E (expectedLogs E dataSlice) db logs
    (forEach dataSlice (pushEpoch E) logs db).
Proof.
  apply collected_forEach. intros data logs1 db1.
  apply collected_forEach. intros block logs2 db2.
  apply collected_forEach. intros tx logs3 db3.
  apply collected_pushTransaction.
Qed.

(** ** [Pushn] *)

Lemma partitionsOf_insert entity ps db :
  partitionsOf entity (setPartitions (<[entity := ps]> (partitions db)) db) = ps.
Proof. unfold partitionsOf. cbn. by rewrite lookup_insert_eq. Qed.

(** A successful [Pushn], step by step: either nothing was collected and the
    store is as the collecting loops left it, or the rows went into the
    table of the partition and its metadata was widened and counted up. *)
Lemma Pushn_success_shape E dataSlice logPartition db db' :
  Pushn E dataSlice logPartition db = (Ok tt, db') ->
  exists rows db1,
    forEach dataSlice (pushEpoch E) [] db = (Ok rows, db1)
    /\ contracts db' = contracts db1
    /\ ((rows = [] /\ db' = db1)
        \/ (rows <> []
            /\ exists old bnMin bnMax,
                tables db1 !! Index logPartition = Some old
                /\ tables db' = <[Index logPartition := old ++ rows]> (tables db1)
                /\ partitionsOf bnPartitionedLogEntity db' =
                   updatePartition (Index logPartition)
                     (addCount (Z.of_nat (length rows)))
                     (updatePartition (Index logPartition) (widen bnMin bnMax)
                        (partitionsOf bnPartitionedLogEntity db1)))).
Proof.
  unfold Pushn, bind at 1.
  destruct (forEach dataSlice (pushEpoch E) [] db) as [[rows|e|] db1]; [|done..].
  intros Hrun. exists rows, db1. split; [done|].
  case_bool_decide as Hlen.
  { injection Hrun as <-. split; [done|]. left. by destruct rows. }
  assert (rows <> []) as Hrows by (by intros ->).
  revert Hrun.
  unfold bind, createInBatches, expandBnRange, deltaUpdateCount, GetPivotBlock,
    withMessage, execute, orPanic.
  repeat match goal with
         | |- context [faults E ?op] => destruct (faults E op); [done|]
         end.
  cbn [tables logStatement].
  destruct (tables db1 !! Index logPartition) as [old|] eqn:Hold; [|done].
  destruct (dataSlice !! 0%nat) as [first|]; [|done].
  destruct (Blocks first !! 0%nat) as [firstBlock|]; [|done].
  destruct (last dataSlice) as [lastData|]; [|done].
  destruct (last (Blocks lastData)) as [pivot|]; [|done].
  repeat match goal with
         | |- context [faults E ?op] => destruct (faults E op); [done|]
         end.
  intros [= <-]. split; [done|]. right. split; [done|].
  exists old, (bnUint64 firstBlock), (bnUint64 pivot).
  split; [done|]. split; [done|].
  unfold partitionsOf at 1. cbn. rewrite lookup_insert_eq. cbn.
  do 2 f_equal. unfold partitionsOf. cbn. by rewrite lookup_insert_eq.
Qed.

Lemma Count_updatePartition_addCount index delta f ps :
  (forall p, Count (f p) = Count p) ->
  (forall p, Index (f p) = Index p) ->
  Forall (fun p => 0 <= Count p) ps ->
  0 <= delta ->
  Count <$> updatePartition index (addCount delta) (updatePartition index f ps) =
  (fun p => if Index p =? index then Count p + delta else Count p) <$> ps.
Proof.
  intros Hcount Hindex Hpos Hdelta. unfold updatePartition.
  rewrite <- !list_fmap_compose. apply Forall_fmap_ext.
  eapply Forall_impl; [exact Hpos|]. intros p Hp. cbn in Hp |- *.
  destruct (Index p =? index) eqn:Hi.
  - rewrite Hindex, Hi. cbn. rewrite Hcount. lia.
  - by rewrite Hi.
Qed.

(** C7. [Pushn] skips a transaction that has no receipt in the receipt map
    of its epoch, and one that fails the execution check: both conditions
    are required for it to contribute.  For a batch that was written without
    error, the rows inserted are, in order, one record for every log of
    every transaction that passes both; they were appended to the table of
    the target partition, and the count of the target partition grew by
    exactly the number of rows inserted, the counts of the other partitions
    staying as they were. *)
Theorem Pushn_inserts_executed_logs E :
  (forall data bn tx logs db,
     mjoin (Receipts data !! Hash tx) = None \/ IsTxExecutedInBlock E tx = false ->
     pushTransaction E data bn tx logs db = (Ok logs, db)
     /\ txLogs E data bn tx = [])
  /\ (forall data bn tx receipt,
       mjoin (Receipts data !! Hash tx) = Some receipt ->
       IsTxExecutedInBlock E tx = true ->
       length (txLogs E data bn tx) = length (Logs receipt))
  /\ (forall dataSlice logPartition db db',
       Pushn E dataSlice logPartition db = (Ok tt, db') ->
       Forall (fun p => 0 <= Count p) (partitionsOf bnPartitionedLogEntity db) ->
       exists rows,
         Forall2 (rowOf E (contracts db')) rows (expectedLogs E dataSlice)
         /\ length rows = length (expectedLogs E dataSlice)
         /\ tables db' !! Index logPartition =
            (fun old => old ++ rows) <$> tables db !! Index logPartition
         /\ (forall i, i <> Index logPartition -> tables db' !! i = tables db !! i)
         /\ Count <$> partitionsOf bnPartitionedLogEntity db' =
            (fun p => if Index p =? Index logPartition
                      then Count p + Z.of_nat (length rows) else Count p)
              <$> partitionsOf bnPartitionedLogEntity db
         /\ Index <$> partitionsOf bnPartitionedLogEntity db' =
            Index <$> partitionsOf bnPartitionedLogEntity db).
Proof.
  split; [|split].
  { intros data bn tx logs db Hskip.
    unfold pushTransaction, txLogs, executedReceipt.
    destruct Hskip as [-> | Hexec]; [done|].
    destruct (mjoin (Receipts data !! Hash tx)); [|done].
    cbn. by rewrite Hexec. }
  { intros data bn tx receipt Hreceipt Hexec.
    unfold txLogs, executedReceipt. rewrite Hreceipt. cbn. rewrite Hexec.
    by rewrite length_imap. }
  intros dataSlice logPartition db db' Hrun Hpos.
  destruct (Pushn_success_shape _ _ _ _ _ Hrun)
    as (rows & db1 & Hcollect & Hcs & Hshape).
  pose proof (collected_batch E dataSlice db []) as Hc.
  rewrite Hcollect in Hc. cbn in Hc.
  destruct Hc as ((rows' & [= ->] & Hrows) & Hsub & Hp1 & Ht1 & Hb1 & Hnil).
  exists rows'. rewrite Hcs.
  split; [done|]. split; [by eapply Forall2_length|].
  assert (Hps1 : partitionsOf bnPartitionedLogEntity db1 =
                 partitionsOf bnPartitionedLogEntity db)
    by (unfold partitionsOf; by rewrite Hp1).
  destruct Hshape as [[-> ->]|(Hne & old & bnMin & bnMax & Hold & Htab & Hparts)].
  - rewrite Ht1, Hps1. cbn.
    split; [by destruct (tables db !! Index logPartition); cbn; rewrite ?app_nil_r|].
    split; [done|]. split; [|done].
    symmetry. rewrite <- (list_fmap_id (Count <$> _)) at 1.
    rewrite <- list_fmap_compose. apply Forall_fmap_ext.
    eapply Forall_impl; [exact Hpos|]. intros p Hp. cbn in Hp |- *.
    destruct (Index p =? Index logPartition); lia.
  - rewrite Htab, Hparts, Hps1, <- Ht1.
    split; [by rewrite lookup_insert_eq, Hold|].
    split; [by intros i Hi; rewrite lookup_insert_ne|].
    split.
    + by apply Count_updatePartition_addCount; [| | |lia].
    + unfold updatePartition. rewrite <- !list_fmap_compose.
      apply list_fmap_ext. intros _ p _. cbn.
      destruct (Index p =? Index logPartition) eqn:Hi; cbn; by rewrite ?Hi.
Qed.

(** C10. A batch whose skip rules leave no log record: [Pushn] returns
    success and the store is exactly as before.  No statement was sent, no
    row inserted, and the metadata of the target partition (range and count)
    is untouched. *)
Theorem Pushn_nothing_to_insert E dataSlice logPartition db :
  expectedLogs E dataSlice = [] ->
  Pushn E dataSlice logPartition db = (Ok tt, db).
Proof.
  intros Hnone.
  pose proof (collected_batch E dataSlice db []) as Hc. rewrite Hnone in Hc.
  unfold Pushn, bind at 1.
  destruct (forEach dataSlice (pushEpoch E) [] db) as [[rows|e|] db1]; cbn in Hc.
  - destruct Hc as ((rows' & [= ->] & Hrows) & _ & _ & _ & _ & Hsame).
    apply Forall2_nil_inv_r in Hrows as ->. by rewrite (Hsame eq_refl).
  - done.
  - done.
Qed.

(** ** [preparePartition] *)

#[local] Instance byIndex_trans : Transitive byIndex.
Proof. unfold byIndex. intros p q r. lia. Qed.

#[local] Instance byIndex_total : Total byIndex.
Proof. unfold byIndex. intros p q. lia. Qed.

(** The partition that [latestPartition] finds has the highest index. *)
Lemma latest_highest (ps : list bnPartition) p :
  last (merge_sort byIndex ps) = Some p ->
  p ∈ ps /\ forall q, q ∈ ps -> Index q <= Index p.
Proof.
  intros Hlast. apply last_Some in Hlast as [l Hl].
  pose proof (StronglySorted_merge_sort byIndex ps) as Hsorted.
  pose proof (merge_sort_Permutation byIndex ps) as Hperm.
  rewrite Hl in Hsorted, Hperm. split.
  - rewrite <- Hperm. set_solver.
  - intros q Hq. rewrite <- Hperm in Hq.
    apply StronglySorted_app in Hsorted as (Hle & _ & _).
    apply elem_of_app in Hq as [Hq|Hq].
    + apply (Hle q p Hq). set_solver.
    + apply list_elem_of_singleton in Hq as ->. lia.
Qed.

Lemma latest_none (ps : list bnPartition) :
  last (merge_sort byIndex ps) = None <-> ps = [].
Proof.
  rewrite last_None. split.
  - intros Hnil. pose proof (merge_sort_Permutation byIndex ps) as Hperm.
    rewrite Hnil in Hperm. by apply Permutation_nil_l in Hperm.
  - by intros ->.
Qed.

(** Whatever [Pushn] writes goes to the table of the partition it was given. *)
Lemma Pushn_other_tables E dataSlice logPartition db db' :
  Pushn E dataSlice logPartition db = (Ok tt, db') ->
  forall i, i <> Index logPartition -> tables db' !! i = tables db !! i.
Proof.
  intros Hrun i Hi.
  destruct (Pushn_success_shape _ _ _ _ _ Hrun)
    as (rows & db1 & Hcollect & _ & Hshape).
  pose proof (collected_batch E dataSlice db []) as Hc.
  rewrite Hcollect in Hc. cbn in Hc.
  destruct Hc as (_ & _ & _ & Ht1 & _).
  destruct Hshape as [[_ ->]|(_ & old & bnMin & bnMax & _ & -> & _)].
  - by rewrite Ht1.
  - by rewrite lookup_insert_ne, Ht1.
Qed.

(** C6. With the metadata of "logs" readable: when a latest partition exists
    and its count is below 10,000,000, [preparePartition] returns it and
    leaves partitions and tables alone; when there is none, or the count of
    the latest has reached 10,000,000, it grows the next partition (empty,
    range unset, with its table) and returns that one.  The metadata changes
    exactly in the second case.  The batch then goes to the table of the one
    partition returned: [Pushn] changes no other table. *)
Theorem preparePartition_target E dataSlice db :
  faults E (OpLatestPartition bnPartitionedLogEntity) = None ->
  let ps := partitionsOf bnPartitionedLogEntity db in
  let latest := last (merge_sort byIndex ps) in
  (forall p,
     latest = Some p ->
     Count p < 10000000 ->
     preparePartition E dataSlice db =
     (Ok p, logStatement (OpLatestPartition bnPartitionedLogEntity) db)
     /\ p ∈ ps
     /\ (forall q, q ∈ ps -> Index q <= Index p))
  /\ (ps = [] \/ (exists p, latest = Some p /\ 10000000 <= Count p) ->
      faults E (OpGrowPartition bnPartitionedLogEntity) = None ->
      exists db',
        let newPartition :=
          {| Index := match latest with Some p => u32 (Index p + 1) | None => 0 end;
             BnMin := None; BnMax := None; Count := 0 |} in
        preparePartition E dataSlice db = (Ok newPartition, db')
        /\ partitionsOf bnPartitionedLogEntity db' = ps ++ [newPartition]
        /\ tables db' = <[Index newPartition := []]> (tables db))
  /\ (forall q db',
       preparePartition E dataSlice db = (Ok q, db') ->
       partitions db' = partitions db <->
       exists p, latest = Some p /\ Count p < 10000000)
  /\ (forall logPartition dbA dbB,
       Pushn E dataSlice logPartition dbA = (Ok tt, dbB) ->
       forall i, i <> Index logPartition -> tables dbB !! i = tables dbA !! i).
Proof.
  intros Hread ps latest.
  assert (Hlatest : forall k : option bnPartition -> M bnPartition,
             bind (withMessage (latestPartition E bnPartitionedLogEntity)
                     "failed to get latest log partition") k db =
             k latest (logStatement (OpLatestPartition bnPartitionedLogEntity) db)).
  { intros k. unfold bind, withMessage, latestPartition, execute. by rewrite Hread. }
  assert (Hgrow : faults E (OpGrowPartition bnPartitionedLogEntity) = None ->
             withMessage (growPartition E bnPartitionedLogEntity)
               "failed to grow log partition"
               (logStatement (OpLatestPartition bnPartitionedLogEntity) db) =
             (Ok {| Index := match latest with
                             | Some p => u32 (Index p + 1) | None => 0 end;
                    BnMin := None; BnMax := None; Count := 0 |},
              (growPartition E bnPartitionedLogEntity
                 (logStatement (OpLatestPartition bnPartitionedLogEntity) db)).2)).
  { intros Hfault. unfold withMessage, growPartition, execute. by rewrite Hfault. }
  assert (Hgrown : forall q db',
             withMessage (growPartition E bnPartitionedLogEntity)
               "failed to grow log partition"
               (logStatement (OpLatestPartition bnPartitionedLogEntity) db) =
             (Ok q, db') ->
             partitions db' <> partitions db).
  { unfold withMessage, growPartition, execute.
    destruct (faults E (OpGrowPartition bnPartitionedLogEntity)); [done|].
    intros q db' [= _ <-] Heq. cbn in Heq.
    apply (f_equal (fun m => length (default [] (m !! bnPartitionedLogEntity)))) in Heq.
    rewrite lookup_insert_eq in Heq. cbn in Heq. rewrite length_app in Heq.
    unfold partitionsOf in Heq. cbn in Heq. lia. }
  unfold preparePartition. rewrite Hlatest.
  split; [|split; [|split]].
  - intros p Hp Hcount. rewrite Hp. change bnPartitionedLogVolumeSize with 10000000.
    destruct (Z.leb_spec 10000000 (Count p)); [lia|].
    split; [done|]. by apply latest_highest.
  - intros Hfull Hfault. eexists. cbn zeta.
    assert (Hbranch : match latest with
                      | Some partition =>
                          if bnPartitionedLogVolumeSize <=? Count partition
                          then withMessage (growPartition E bnPartitionedLogEntity)
                                 "failed to grow log partition"
                          else ret partition
                      | None =>
                          withMessage (growPartition E bnPartitionedLogEntity)
                            "failed to grow log partition"
                      end =
                      withMessage (growPartition E bnPartitionedLogEntity)
                        "failed to grow log partition").
    { destruct Hfull as [Hnil|(p & Hp & Hcount)].
      - apply latest_none in Hnil. fold latest in Hnil. by rewrite Hnil.
      - rewrite Hp. change bnPartitionedLogVolumeSize with 10000000.
        by destruct (Z.leb_spec 10000000 (Count p)); [|lia]. }
    rewrite Hbranch, (Hgrow Hfault). split; [done|].
    unfold growPartition, execute. rewrite Hfault. cbn.
    split; [|done]. unfold partitionsOf. cbn. by rewrite lookup_insert_eq.
  - intros q db'. destruct latest as [p|] eqn:Hp.
    + change bnPartitionedLogVolumeSize with 10000000.
      destruct (Z.leb_spec 10000000 (Count p)).
      * intros Hrun. split.
        -- intros Hsame. by apply Hgrown in Hrun.
        -- intros (p' & [= <-] & Hlt). lia.
      * intros [= <- <-]. split; [eauto|done].
    + intros Hrun. split.
      * intros Hsame. by apply Hgrown in Hrun.
      * by intros (p' & Hp' & _).
  - intros logPartition dbA dbB. apply Pushn_other_tables.
Qed.

(** ** [Popn] *)

Section Revert.
Variable E : environment.
Variable bn : Z.
Hypothesis no_faults : forall op, faults E op = None.

(** One turn of the loop, for a partition whose table exists. *)
Lemma popPartition_ok p db old :
  tables db !! Index p = Some old ->
  popPartition E bn p tt db =
  (Ok tt,
   {| partitions :=
        <[bnPartitionedLogEntity :=
            updatePartition (Index p) (addCount (- deleted db bn (Index p)))
              (partitionsOf bnPartitionedLogEntity db)]> (partitions db);
      tables := <[Index p := keptBelow bn old]> (tables db);
      contracts := contracts db;
      epochBlockMap := epochBlockMap db;
      statements :=
        statements db ++
        [OpDeleteFrom (Index p) bn;
         OpDeltaUpdateCount bnPartitionedLogEntity (Index p)
           (- deleted db bn (Index p))] |}).
Proof.
  intros Hold.
  unfold popPartition, bind, deleteFrom, withMessage, deltaUpdateCount, execute.
  rewrite !no_faults. cbn [tables logStatement]. rewrite Hold.
  rewrite !no_faults. unfold deleted. rewrite Hold.
  unfold setPartitions, setTables, logStatement, partitionsOf. cbn.
  by rewrite <- app_assoc.
Qed.

(** The whole loop, over partitions with distinct indices whose tables
    exist; [d] tells how many rows each table loses. *)
Lemma popPartitions_ok (d : Z -> Z) (l : list bnPartition) : forall db,
  NoDup (Index <$> l) ->
  (forall p, p ∈ l ->
     is_Some (tables db !! Index p) /\ deleted db bn (Index p) = d (Index p)) ->
  exists db',
    forEach l (popPartition E bn) tt db = (Ok tt, db')
    /\ statements db' =
       statements db ++
       (l ≫= fun p => [OpDeleteFrom (Index p) bn;
                       OpDeltaUpdateCount bnPartitionedLogEntity (Index p)
                         (- d (Index p))])
    /\ (forall i, tables db' !! i =
                  if bool_decide (i ∈ Index <$> l)
                  then keptBelow bn <$> tables db !! i else tables db !! i)
    /\ partitionsOf bnPartitionedLogEntity db' =
       foldl (fun ps p => updatePartition (Index p) (addCount (- d (Index p))) ps)
         (partitionsOf bnPartitionedLogEntity db) l
    /\ contracts db' = contracts db
    /\ epochBlockMap db' = epochBlockMap db.
Proof.
  induction l as [|p l IH]; intros db Hnd Hl.
  - exists db. cbn. rewrite app_nil_r. repeat split; done.
  - apply NoDup_cons in Hnd as [Hp Hnd].
    destruct (Hl p) as [[old Hold] Hd]; [apply list_elem_of_here|].
    cbn [forEach]. unfold bind at 1. rewrite (popPartition_ok p db old Hold).
    rewrite Hd.
    set (db1 := {| partitions := _; tables := _; contracts := _;
                   epochBlockMap := _; statements := _ |}).
    assert (Hother : forall q, q ∈ l -> tables db1 !! Index q = tables db !! Index q).
    { intros q Hq. cbn. apply lookup_insert_ne. intros Heq. apply Hp.
      rewrite Heq. by apply list_elem_of_fmap_2. }
    destruct (IH db1 Hnd) as (db' & Hrun & Hst & Htab & Hps & Hcs & Hbm).
    { intros q Hq. destruct (Hl q) as [Hsome Hdq]; [by apply list_elem_of_further|].
      unfold deleted in *. rewrite (Hother q Hq). done. }
    exists db'. split; [done|]. split; [|split; [|split; [|done]]].
    + rewrite Hst. cbn. by rewrite <- app_assoc.
    + intros i. rewrite Htab. cbn [fmap list_fmap].
      destruct (decide (i = Index p)) as [->|Hi].
      * rewrite (bool_decide_eq_true_2 (Index p ∈ Index p :: _))
          by apply list_elem_of_here.
        cbn. rewrite lookup_insert_eq, Hold. by case_bool_decide.
      * cbn. rewrite lookup_insert_ne by done.
        case_bool_decide as H1; case_bool_decide as H2; try done.
        -- exfalso. apply H2. by apply list_elem_of_further.
        -- exfalso. apply elem_of_cons in H2 as [H2|H2]; [done|by apply H1].
    + rewrite Hps. cbn [foldl]. f_equal.
      unfold partitionsOf. cbn. by rewrite lookup_insert_eq.
Qed.

End Revert.

Lemma NoDup_fmap_eq {A B} (f : A -> B) (l : list A) x y :
  NoDup (f <$> l) -> x ∈ l -> y ∈ l -> f x = f y -> x = y.
Proof.
  induction l as [|a l IH]; intros Hnd Hx Hy Hf; [by apply elem_of_nil in Hx|].
  cbn in Hnd. apply NoDup_cons in Hnd as [Ha Hnd].
  apply elem_of_cons in Hx as [->|Hx]; apply elem_of_cons in Hy as [->|Hy].
  - done.
  - exfalso. apply Ha. rewrite Hf. by apply list_elem_of_fmap_2.
  - exfalso. apply Ha. rewrite <- Hf. by apply list_elem_of_fmap_2.
  - by apply IH.
Qed.

(** Counts after the loop: each partition of the work list lost its rows
    once, the others kept their count. *)
Lemma counts_after_loop (d : Z -> Z) (l : list bnPartition) : forall ps,
  NoDup (Index <$> l) ->
  let ps' := foldl (fun ps p => updatePartition (Index p) (addCount (- d (Index p))) ps)
               ps l in
  Count <$> ps' =
  (fun q => if bool_decide (Index q ∈ Index <$> l)
            then Z.max 0 (Count q - d (Index q)) else Count q) <$> ps
  /\ Index <$> ps' = Index <$> ps.
Proof.
  induction l as [|p l IH]; intros ps Hnd.
  - cbn. split; [|done]. rewrite <- (list_fmap_id (Count <$> ps)) at 1.
    rewrite <- list_fmap_compose. apply list_fmap_ext. intros _ q _. cbn.
    by case_bool_decide as H; [apply elem_of_nil in H|].
  - cbn in Hnd. apply NoDup_cons in Hnd as [Hp Hnd]. cbn [foldl].
    destruct (IH (updatePartition (Index p) (addCount (- d (Index p))) ps) Hnd)
      as [Hcount Hindex].
    cbn zeta. rewrite Hcount, Hindex. unfold updatePartition.
    rewrite <- !list_fmap_compose. split.
    + apply list_fmap_ext. intros _ q _. cbn.
      destruct (Z.eqb_spec (Index q) (Index p)) as [Heq|Hne].
      * cbn. rewrite Heq.
        rewrite (bool_decide_eq_false_2 (Index p ∈ Index <$> l)) by done.
        rewrite (bool_decide_eq_true_2 (Index p ∈ Index p :: _))
          by apply list_elem_of_here.
        reflexivity.
      * case_bool_decide as H1; case_bool_decide as H2; try done.
        -- exfalso. apply H2. by apply list_elem_of_further.
        -- exfalso. apply elem_of_cons in H2 as [H2|H2]; [done|by apply H1].
    + apply list_fmap_ext. intros _ q _. cbn.
      by destruct (Index q =? Index p).
Qed.

Lemma worklist_descending db bn' :
  StronglySorted (fun p q => Index q <= Index p) (worklist db bn')
  /\ worklist db bn' ≡ₚ
     filter (fun p => isCandidate bn' p = true) (partitionsOf bnPartitionedLogEntity db).
Proof.
  unfold worklist. split.
  - assert (Transitive (flip byIndex)) as Htrans
      by (intros p q r; unfold flip, byIndex; lia).
    apply (Sorted_StronglySorted (flip byIndex)).
    apply Sorted_reverse, Sorted_merge_sort. apply _.
  - by rewrite reverse_Permutation, merge_sort_Permutation.
Qed.

(** C4.  Without a block mapping for [epochUntil], [Popn] returns an error
    after its single look-up: no row is deleted, no metadata touched.  With
    a mapping to block [from] (and a database that executes the statements,
    over partitions with distinct indices whose tables exist and whose
    counts cover their rows), [Popn] asks [shrinkBnRange] for the
    candidates, then works through them from the highest index down to the
    lowest: each candidate's table loses exactly its rows with block number
    [>= from], each candidate's count is lowered by exactly the number of
    rows deleted from it, tables and counts of the other partitions stay. *)
Theorem Popn_reverts E epochUntil db :
  (epochBlockMap db !! epochUntil = None ->
   exists err,
     Popn E epochUntil db = (Fail err, logStatement (OpBlockRange epochUntil) db))
  /\ (forall from to,
       epochBlockMap db !! epochUntil = Some (from, to) ->
       (forall op, faults E op = None) ->
       let ps := partitionsOf bnPartitionedLogEntity db in
       NoDup (Index <$> ps) ->
       (forall p, p ∈ ps -> isCandidate from p = true ->
          is_Some (tables db !! Index p) /\ deleted db from (Index p) <= Count p) ->
       exists db',
         Popn E epochUntil db = (Ok tt, db')
         /\ statements db' =
            statements db ++
            [OpBlockRange epochUntil; OpShrinkBnRange bnPartitionedLogEntity from] ++
            (worklist db from ≫= fun p =>
               [OpDeleteFrom (Index p) from;
                OpDeltaUpdateCount bnPartitionedLogEntity (Index p)
                  (- deleted db from (Index p))])
         /\ StronglySorted (fun p q => Index q <= Index p) (worklist db from)
         /\ worklist db from ≡ₚ filter (fun p => isCandidate from p = true) ps
         /\ (forall i, tables db' !! i =
                       if bool_decide (i ∈ Index <$> worklist db from)
                       then keptBelow from <$> tables db !! i
                       else tables db !! i)
         /\ Count <$> partitionsOf bnPartitionedLogEntity db' =
            (fun p => if isCandidate from p
                      then Count p - deleted db from (Index p) else Count p) <$> ps
         /\ Index <$> partitionsOf bnPartitionedLogEntity db' = Index <$> ps).
Proof.
  split.
  - intros Hnone. unfold Popn, bind, withMessagef, BlockRange, execute.
    destruct (faults E (OpBlockRange epochUntil)); [by eexists|].
    cbn [epochBlockMap logStatement]. rewrite Hnone. by eexists.
  - intros from to Hmap Hok ps Hnd Hwf.
    destruct (worklist_descending db from) as [Hsorted Hperm].
    set (db1 := setPartitions
                  (<[bnPartitionedLogEntity := truncateRange from <$> ps]>
                     (partitions
                        (logStatement (OpShrinkBnRange bnPartitionedLogEntity from)
                           (logStatement (OpBlockRange epochUntil) db))))
                  (logStatement (OpShrinkBnRange bnPartitionedLogEntity from)
                     (logStatement (OpBlockRange epochUntil) db))).
    assert (Hhead : Popn E epochUntil db =
                    forEach (worklist db from) (popPartition E from) tt db1).
    { unfold Popn, bind, withMessagef, withMessage, BlockRange, shrinkBnRange, execute.
      rewrite !Hok. cbn [epochBlockMap logStatement]. rewrite Hmap. cbn [negb fst].
      by rewrite !Hok. }
    assert (Hin : forall p, p ∈ worklist db from -> p ∈ ps /\ isCandidate from p = true).
    { intros p Hp. rewrite Hperm in Hp. by apply list_elem_of_filter in Hp as [? ?]. }
    assert (Hndw : NoDup (Index <$> worklist db from)).
    { rewrite Hperm. eapply sublist_NoDup; [exact Hnd|].
      apply fmap_sublist, sublist_filter. }
    destruct (popPartitions_ok E from Hok (deleted db from) (worklist db from) db1 Hndw)
      as (db' & Hrun & Hst & Htab & Hps & _ & _).
    { intros p Hp. destruct (Hin p Hp) as [Hp1 Hp2].
      destruct (Hwf p Hp1 Hp2) as [Hsome _]. done. }
    exists db'. rewrite Hhead. split; [done|].
    split; [by rewrite Hst; cbn; rewrite <- !app_assoc|].
    split; [done|]. split; [done|]. split; [exact Htab|].
    rewrite Hps. unfold db1 at 1 2. rewrite partitionsOf_insert.
    destruct (counts_after_loop (deleted db from) (worklist db from)
                (truncateRange from <$> ps) Hndw) as [Hcount Hindex].
    cbn zeta in Hcount, Hindex. rewrite Hcount, Hindex.
    rewrite <- !list_fmap_compose. split.
    + apply Forall_fmap_ext, Forall_forall. intros q Hq. cbn.
      assert (Hq' : Index (truncateRange from q) = Index q
                    /\ Count (truncateRange from q) = Count q).
      { unfold truncateRange. destruct (isCandidate from q); [|done].
        destruct (BnMin q) as [lo|]; [|done]. by destruct (from <=? lo). }
      destruct Hq' as [-> ->].
      destruct (isCandidate from q) eqn:Hcand.
      * rewrite bool_decide_eq_true_2.
        -- destruct (Hwf q Hq Hcand) as [_ Hle]. lia.
        -- apply list_elem_of_fmap_2. rewrite Hperm.
           by apply list_elem_of_filter.
      * rewrite bool_decide_eq_false_2; [done|].
        intros (p & Hidx & Hp)%list_elem_of_fmap.
        destruct (Hin p Hp) as [Hp1 Hp2].
        assert (q = p) as -> by by eapply (NoDup_fmap_eq Index ps).
        congruence.
    + apply list_fmap_ext. intros _ q _. cbn.
      unfold truncateRange. destruct (isCandidate from q); [|done].
      destruct (BnMin q) as [lo|]; [|done]. by destruct (from <=? lo).
Qed.

(** ** The theorems on the sample store *)

Lemma Pushn_inserts_executed_logs_witness :
  exists rows,
    length rows = 2%nat
    /\ tables (Pushn sampleEnvironment [sampleData 1 10] firstPartition
                 preparedDatabase).2 !! 0 = Some rows.
Proof.
  destruct (proj2 (proj2 (Pushn_inserts_executed_logs sampleEnvironment))
              [sampleData 1 10] firstPartition preparedDatabase
              (Pushn sampleEnvironment [sampleData 1 10] firstPartition
                 preparedDatabase).2)
    as (rows & _ & Hlen & Htab & _).
  - vm_compute; reflexivity.
  - replace (partitionsOf bnPartitionedLogEntity preparedDatabase)
      with [firstPartition] by (vm_compute; reflexivity).
    repeat constructor. cbn. lia.
  - change (Index firstPartition) with 0 in Htab.
    exists rows. split; [rewrite Hlen; vm_compute; reflexivity | rewrite Htab; vm_compute; reflexivity].
Defined.

Lemma Pushn_nothing_to_insert_witness :
  Pushn sampleEnvironment [idleData 3 12] firstPartition sampleDatabase =
  (Ok tt, sampleDatabase).
Proof. apply Pushn_nothing_to_insert. vm_compute; reflexivity. Defined.

Lemma preparePartition_target_witness :
  preparePartition sampleEnvironment [sampleData 3 12] sampleDatabase =
  (Ok {| Index := 0; BnMin := Some 10; BnMax := Some 11; Count := 4 |},
   logStatement (OpLatestPartition bnPartitionedLogEntity) sampleDatabase).
Proof.
  destruct (preparePartition_target sampleEnvironment [sampleData 3 12]
              sampleDatabase eq_refl) as (Hkeep & _).
  destruct (Hkeep {| Index := 0; BnMin := Some 10; BnMax := Some 11; Count := 4 |})
    as (Hrun & _); [vm_compute; reflexivity | vm_compute; reflexivity | exact Hrun].
Defined.

Lemma Popn_reverts_witness :
  exists db',
    Popn sampleEnvironment 2 sampleDatabase = (Ok tt, db')
    /\ Count <$> partitionsOf bnPartitionedLogEntity db' = [2]
    /\ BlockNumber <$> default [] (tables db' !! 0) = [10; 10].
Proof.
  assert (Hps : partitionsOf bnPartitionedLogEntity sampleDatabase =
                [{| Index := 0; BnMin := Some 10; BnMax := Some 11; Count := 4 |}])
    by (vm_compute; reflexivity).
  destruct (proj2 (Popn_reverts sampleEnvironment 2 sampleDatabase) 11 11)
    as (db' & Hrun & _ & _ & _ & Htab & Hcount & _).
  - vm_compute; reflexivity.
  - done.
  - rewrite Hps. cbn. apply NoDup_singleton.
  - rewrite Hps. intros p ->%list_elem_of_singleton _.
    split; [vm_compute; eauto | vm_compute; discriminate].
  - exists db'. split; [done|]. split.
    + rewrite Hcount, Hps. vm_compute; reflexivity.
    + rewrite Htab. vm_compute; reflexivity.
Defined.

End LogStoreV2Facts.

(** * Further properties of [KVCacheSyncer] *)

Section KVCacheSyncerMore.
Import Store EpochWindow Sync.
Local Open Scope sync_scope.

Implicit Types (C : collaborators) (s : KVCacheSyncer) (j : list call) (w : world).

(** The fetch loop leaves a journal of consecutive fetches; it runs to the
    end exactly when it returns data, one element per turn. *)
Lemma queryEpochs_journal C syncFrom n : forall i acc w,
  exists k,
    (k <= n)%nat
    /\ journal (queryEpochs C syncFrom n i acc w).2 =
       journal w ++ queries syncFrom i k
    /\ (forall ds, (queryEpochs C syncFrom n i acc w).1 = inr ds ->
                   k = n /\ length ds = (length acc + n)%nat)
    /\ (forall err, (queryEpochs C syncFrom n i acc w).1 = inl err -> (0 < k)%nat).
Proof.
  induction n as [|n IH]; intros i acc w.
  - exists 0%nat. cbn. rewrite app_nil_r. split; [lia|]. split; [done|].
    split; [|done]. intros ds [= <-]. split; [done|lia].
  - cbn [queryEpochs]. unfold bind, invoke.
    destruct (QueryEpochData C (journal w) (u64 (syncFrom + i))) as [err|d].
    + exists 1%nat. cbn. split; [lia|]. split; [done|]. split; [done|]. intros; lia.
    + destruct (IH (i + 1) (acc ++ [d])
                  {| syncer := syncer w;
                     journal := journal w ++ [CallQueryEpochData (u64 (syncFrom + i))] |})
        as (k & Hk & Hj & Hok & Herr).
      exists (S k). split; [lia|]. split; [|split].
      * rewrite Hj. cbn. by rewrite <- app_assoc.
      * intros ds Hds. destruct (Hok ds Hds) as [-> Hlen].
        rewrite length_app in Hlen. cbn in Hlen. lia.
      * intros; lia.
Qed.

(** The calls of [syncOnce]: fetches of the chunk in order, then at most one
    [Pushn], issued after the last fetch only. *)
Lemma syncOnce_trace C w :
  let win := syncWindow (syncer w) in
  let chunk := peekShrinkFrom win (u32 (maxSyncEpochs (syncer w))) in
  let syncSize := Z.to_nat chunk.2 in
  let w' := (syncOnce C w).2 in
  (exists k tail,
     journal w' = journal w ++ queries chunk.1 0 k ++ tail
     /\ (k <= syncSize)%nat
     /\ (tail = []
         \/ exists ds, tail = [CallPushn ds] /\ k = syncSize /\ length ds = syncSize))
  /\ maxSyncEpochs (syncer w') = maxSyncEpochs (syncer w).
Proof.
  intros win chunk syncSize w'. subst w'.
  unfold syncOnce, bind, getWindow, getMaxSyncEpochs, ret.
  fold win. destruct (isEmpty win) eqn:Hempty.
  { split; [|done]. exists 0%nat, []. cbn. rewrite app_nil_r.
    split; [done|]. split; [lia|by left]. }
  fold chunk. destruct chunk as [syncFrom size] eqn:Hchunk. cbn [fst snd] in *.
  destruct (queryEpochs_journal C syncFrom syncSize 0 [] w)
    as (k & Hk & Hj & Hok & _).
  pose proof (queryEpochs_syncer C syncFrom syncSize 0 [] w) as Hs.
  fold syncSize.
  destruct (queryEpochs C syncFrom syncSize 0 [] w) as [[err|ds] w1];
    cbn [fst snd] in *.
  { split; [|by rewrite Hs].
    exists k, []. rewrite app_nil_r. split; [done|]. split; [done|by left]. }
  destruct (Hok ds eq_refl) as [-> Hlen]. cbn in Hlen.
  unfold invoke, setWindow.
  assert (Htail : journal w1 ++ [CallPushn ds] =
                  journal w ++ queries syncFrom 0 syncSize ++ [CallPushn ds])
    by (by rewrite Hj, <- app_assoc).
  destruct (Pushn C (journal w1) ds); cbn [fst snd syncer journal maxSyncEpochs].
  - split; [|by rewrite Hs].
    exists syncSize, [CallPushn ds]. split; [done|]. split; [done|]. right. eauto.
  - split; [|by rewrite Hs].
    exists syncSize, [CallPushn ds]. split; [done|]. split; [done|]. right. eauto.
Qed.

(** X1. Every call [syncOnce] makes is a fetch of one of the epochs
    [syncFrom, syncFrom+1, ...] of the chunk, in order, followed by at most
    one [Pushn]; a [Pushn] is only issued after all [syncSize] fetches, with
    a batch of exactly [syncSize] epochs.  On an empty window no call is
    made at all.  The batch limit is never changed. *)
Theorem syncOnce_journal C w :
  let win := syncWindow (syncer w) in
  let chunk := peekShrinkFrom win (u32 (maxSyncEpochs (syncer w))) in
  let syncSize := Z.to_nat chunk.2 in
  let w' := (syncOnce C w).2 in
  (exists k tail,
     journal w' = journal w ++ queries chunk.1 0 k ++ tail
     /\ (k <= syncSize)%nat
     /\ (tail = []
         \/ exists ds, tail = [CallPushn ds] /\ k = syncSize /\ length ds = syncSize))
  /\ (isEmpty win = true -> syncOnce C w = ((true, None), w))
  /\ maxSyncEpochs (syncer w') = maxSyncEpochs (syncer w).
Proof.
  intros win chunk syncSize w'.
  destruct (syncOnce_trace C w) as [Htrace Hmax].
  split; [exact Htrace|]. split; [|exact Hmax].
  intros Hempty. unfold syncOnce, bind, getWindow, getMaxSyncEpochs, ret.
  fold win. by rewrite Hempty.
Qed.

(** What [syncOnce] reports as "complete" is the emptiness of the window it
    leaves behind. *)
Lemma syncOnce_reports_emptiness C w b w' :
  syncOnce C w = ((b, None), w') -> b = isEmpty (syncWindow (syncer w')).
Proof.
  unfold syncOnce, bind, getWindow, getMaxSyncEpochs, ret.
  destruct (isEmpty (syncWindow (syncer w))) eqn:Hempty.
  { by intros [= <- <-]. }
  destruct (peekShrinkFrom _ _) as [syncFrom syncSize].
  destruct (queryEpochs _ _ _ _ _ _) as [[err|ds] w1]; [done|].
  unfold invoke. destruct (Pushn C (journal w1) ds); [done|].
  by intros [= <- <-].
Qed.

(** X2. [doTicker] re-arms the ticker with the catch-up interval exactly when
    [syncOnce] returned without error and left a window that is not empty;
    after an error, or once the window is drained, it falls back to the
    normal interval.  The error it returns is the one of [syncOnce]. *)
Theorem doTicker_interval C w :
  let r := doTicker C w in
  (r.1.1 = syncIntervalCatchUp <->
   r.1.2 = None /\ isEmpty (syncWindow (syncer r.2)) = false)
  /\ r.1.2 = (syncOnce C w).1.2
  /\ r.2 = (syncOnce C w).2.
Proof.
  cbn zeta. unfold doTicker, bind.
  destruct (syncOnce C w) as [[b err] w'] eqn:Hrun.
  destruct err as [err|]; cbn.
  { destruct b; cbn; (split; [|done]); (split; [done|]); by intros [? _]. }
  apply syncOnce_reports_emptiness in Hrun as ->.
  destruct (isEmpty (syncWindow (syncer w'))) eqn:Hempty; cbn; rewrite ?Hempty;
    (split; [|done]).
  - split; [done|]. by intros [_ ?].
  - done.
Qed.

(** X3. [handleNewEpoch] makes at most one call, and never a fetch or a
    write: [Popn] of the new epoch when the window reports a pivot switch,
    otherwise one [Flush] when it reports an overflow, otherwise nothing, in
    which case the window is expanded to the new epoch.  The batch limit is
    never changed. *)
Theorem handleNewEpoch_calls C e w :
  let win := syncWindow (syncer w) in
  let w' := (handleNewEpoch C e w).2 in
  journal w' =
  journal w ++
  (if peekWillPivotSwitch win e then [CallPopn e]
   else if peekWillOverflow win e then [CallFlush] else [])
  /\ maxSyncEpochs (syncer w') = maxSyncEpochs (syncer w)
  /\ (peekWillPivotSwitch win e = false ->
      peekWillOverflow win e = false ->
      syncWindow (syncer w') = expandTo win e).
Proof.
  cbn zeta.
  unfold handleNewEpoch, bind, getWindow, pivotSwitchRevert, invoke, setWindow, ret.
  destruct (peekWillPivotSwitch (syncWindow (syncer w)) e).
  { destruct (Popn C (journal w) e); cbn; done. }
  destruct (peekWillOverflow (syncWindow (syncer w)) e).
  { destruct (Flush C (journal w)); cbn; done. }
  cbn. by rewrite app_nil_r.
Qed.


Lemma queries_no_drop syncFrom k : forall i,
  Forall (fun c => isDrop c = false) (queries syncFrom i k).
Proof.
  induction k as [|k IH]; intros i; [constructor|].
  cbn. constructor; [done|apply IH].
Qed.

Lemma handleNewEpoch_journal C e w :
  journal (handleNewEpoch C e w).2 =
  journal w ++
  (if peekWillPivotSwitch (syncWindow (syncer w)) e then [CallPopn e]
   else if peekWillOverflow (syncWindow (syncer w)) e then [CallFlush] else [])
  /\ maxSyncEpochs (syncer (handleNewEpoch C e w).2) = maxSyncEpochs (syncer w).
Proof.
  unfold handleNewEpoch, bind, getWindow, pivotSwitchRevert, invoke, setWindow, ret.
  destruct (peekWillPivotSwitch (syncWindow (syncer w)) e).
  { destruct (Popn C (journal w) e); cbn; done. }
  destruct (peekWillOverflow (syncWindow (syncer w)) e).
  { destruct (Flush C (journal w)); cbn; done. }
  cbn. by rewrite app_nil_r.
Qed.

Lemma doTicker_world C w : (doTicker C w).2 = (syncOnce C w).2.
Proof.
  unfold doTicker, bind. destruct (syncOnce C w) as [[b err] w'].
  destruct err as [err|]; destruct b; reflexivity.
Qed.

(** The calls of one event. *)
Lemma step_calls C ev w :
  exists tail,
    journal (step C ev w).2 = journal w ++ tail
    /\ maxSyncEpochs (syncer (step C ev w).2) = maxSyncEpochs (syncer w)
    /\ (ev <> EvTick -> Forall (fun c => isIngest c = false) tail)
    /\ ((forall e, ev <> EvNewEpoch e) -> Forall (fun c => isDrop c = false) tail).
Proof.
  destruct ev as [|e|].
  - exists [CallEnsureStoreEpochDataOk]. cbn. repeat split; by repeat constructor.
  - destruct (handleNewEpoch_journal C e w) as (Hj & Hmax).
    eexists. cbn [step]. split; [exact Hj|]. split; [done|]. split.
    + intros _. destruct (peekWillPivotSwitch _ _); [by repeat constructor|].
      destruct (peekWillOverflow _ _); by repeat constructor.
    + intros Hne. by destruct (Hne e).
  - destruct (syncOnce_trace C w) as ((k & tail & Hj & _ & Htail) & Hmax).
    pose proof (doTicker_world C w) as Hw.
    cbn zeta in *.
    assert (Hstep : (step C EvTick w).2 = (syncOnce C w).2).
    { cbn [step]. unfold bind at 1. rewrite <- Hw. by destruct (doTicker C w). }
    rewrite Hstep. eexists. split; [exact Hj|]. split; [done|]. split; [done|].
    intros _. apply Forall_app. split.
    + apply queries_no_drop.
    + destruct Htail as [->|(ds & -> & _)]; by repeat constructor.
Qed.

(** X5. Along any run of the loop the batch limit stays what it was, and the
    journal only grows.  Fetches from the node and writes of epoch data
    happen on ticks only: a run without tick makes none.  Reverts and
    flushes happen on new-epoch notifications only: a run without
    notification makes none. *)
Theorem SyncLoop_calls C signals : forall w,
  exists tail,
    journal (SyncLoop C signals w).2 = journal w ++ tail
    /\ maxSyncEpochs (syncer (SyncLoop C signals w).2) = maxSyncEpochs (syncer w)
    /\ (Forall (fun sg => sg <> Some EvTick) signals ->
        Forall (fun c => isIngest c = false) tail)
    /\ (Forall (fun sg => forall e, sg <> Some (EvNewEpoch e)) signals ->
        Forall (fun c => isDrop c = false) tail).
Proof.
  induction signals as [|[ev|] signals IH]; intros w.
  - exists []. cbn. rewrite app_nil_r. repeat split; constructor.
  - cbn [SyncLoop]. unfold bind.
    destruct (step_calls C ev w) as (t1 & Hj1 & Hm1 & Hi1 & Hd1).
    destruct (step C ev w) as [[] w1]. cbn [snd] in *.
    destruct (IH w1) as (t2 & Hj2 & Hm2 & Hi2 & Hd2).
    exists (t1 ++ t2). split; [by rewrite Hj2, Hj1, app_assoc|].
    split; [congruence|]. split.
    + intros [Hev Hrest]%Forall_cons. apply Forall_app. split.
      * apply Hi1. by intros ->.
      * by apply Hi2.
    + intros [Hev Hrest]%Forall_cons. apply Forall_app. split.
      * apply Hd1. intros e ->. by apply (Hev e).
      * by apply Hd2.
  - exists []. cbn. rewrite app_nil_r. repeat split; constructor.
Qed.

End KVCacheSyncerMore.

(** * Further properties of the stall [Monitor] *)

Section MonitorMore.
Import Monitor.

Implicit Types (m : Monitor) (now h : Z).

Lemma checkOnce_frame latest now m :
  config (checkOnce latest now m) = config m
  /\ currentHeight (checkOnce latest now m) = currentHeight m
  /\ lastAdvancedAt (checkOnce latest now m) = lastAdvancedAt m
  /\ exists r, healthStatus (checkOnce latest now m) = healthStatus m ++ [r].
Proof.
  unfold checkOnce. destruct latest as [err|latestHeight]; [cbn; eauto 10|].
  destruct (_ <? _); [cbn; eauto 10|].
  destruct (_ <? _); cbn; eauto 10.
Qed.

(** X6. A check only reports: whatever the monitor goes through, its
    configuration is what it was, every check leaves exactly one report and
    an update leaves none, so the reports count the checks.  The height and
    the timestamp are those the updates alone would have produced. *)
Theorem play_reports actions : forall m,
  config (play actions m) = config m
  /\ length (healthStatus (play actions m)) =
     (length (healthStatus m) + length (filter (fun a => isCheck a = true) actions))%nat
  /\ currentHeight (play actions m) =
     currentHeight (play (filter (fun a => isCheck a = false) actions) m)
  /\ lastAdvancedAt (play actions m) =
     lastAdvancedAt (play (filter (fun a => isCheck a = false) actions) m).
Proof.
  induction actions as [|a actions IH] using rev_ind; intros m.
  - cbn. split; [done|]. split; [lia|done].
  - unfold play in *. rewrite foldl_app. cbn [foldl].
    rewrite !filter_app, !length_app, foldl_app.
    destruct (IH m) as (Hc & Hlen & Hh & Ht).
    destruct a as [now h|latest now]; cbn [act].
    + rewrite (filter_cons_False _ _ []) by done.
      rewrite (filter_cons_True (fun a => isCheck a = false)) by done.
      rewrite !filter_nil. cbn [foldl act length].
      cbn [config healthStatus currentHeight lastAdvancedAt Update].
      rewrite Hc, Hlen, Hh, Ht. split; [done|]. split; [lia|done].
    + destruct (checkOnce_frame latest now (foldl (fun acc a => act a acc) m actions))
        as (Hc' & Hh' & Ht' & r & Hr).
      rewrite (filter_cons_True (fun a => isCheck a = true)) by done.
      rewrite (filter_cons_False (fun a => isCheck a = false)) by done.
      rewrite !filter_nil. cbn [foldl length].
      rewrite Hc', Hh', Ht', Hr, length_app. cbn [length].
      split; [done|]. split; [lia|done].
Qed.

(** X7. The lag test is [currentHeight + MaxAllowedLag - 1 < latestHeight] in
    uint64.  With [MaxAllowedLag = 0] a monitor at height 0 never fails it:
    the left side wraps to the largest uint64.  At any height from 1 on, the
    same configuration fails a stalled monitor as soon as the latest height
    has reached its own. *)
Theorem checkOnce_zero_lag m now latestHeight :
  MaxAllowedLag (config m) = 0 ->
  0 <= latestHeight < 2 ^ 64 ->
  (currentHeight m = 0 -> checkOnce (inr latestHeight) now m = onSuccess m)
  /\ (1 <= currentHeight m < 2 ^ 64 ->
      MaxStalledDuration (config m) <= now - lastAdvancedAt m ->
      currentHeight m <= latestHeight ->
      checkOnce (inr latestHeight) now m =
      onFailure errSyncHeightNotGrowing [currentHeight m; latestHeight] m).
Proof.
  intros Hlag Hlatest. unfold checkOnce. rewrite Hlag. split.
  - intros ->. destruct (_ <? _); [done|].
    change (u64 (u64 (0 + 0) - 1)) with (2 ^ 64 - 1).
    by destruct (Z.ltb_spec (2 ^ 64 - 1) latestHeight); [lia|].
  - intros Hcur Hstalled Hle.
    destruct (Z.ltb_spec (now - lastAdvancedAt m) (MaxStalledDuration (config m)));
      [lia|].
    assert (u64 (u64 (currentHeight m + 0) - 1) = currentHeight m - 1) as ->.
    { unfold u64. rewrite Z.add_0_r, (Z.mod_small (currentHeight m)) by lia.
      apply Z.mod_small. lia. }
    by destruct (Z.ltb_spec (currentHeight m - 1) latestHeight); [|lia].
Qed.

Lemma checkOnce_zero_lag_witness :
  checkOnce (inr 5000) 1000000000000
    (NewMonitor {| MaxStalledDuration := 1; MaxAllowedLag := 0 |}) =
  onSuccess (NewMonitor {| MaxStalledDuration := 1; MaxAllowedLag := 0 |}).
Proof.
  destruct (checkOnce_zero_lag
              (NewMonitor {| MaxStalledDuration := 1; MaxAllowedLag := 0 |})
              1000000000000 5000 eq_refl) as [Hzero _]; [lia|].
  apply Hzero. reflexivity.
Defined.

(** X8. A grace period: right after [Start], and right after an update that
    raised the height, a check that fetched the latest height within
    [MaxStalledDuration] of that moment succeeds, whatever the heights. *)
Theorem checkOnce_grace_period m now t latestHeight :
  t - now < MaxStalledDuration (config m) ->
  checkOnce (inr latestHeight) t (Start now m) = onSuccess (Start now m)
  /\ (forall h, currentHeight m < h ->
        checkOnce (inr latestHeight) t (Update now h m) = onSuccess (Update now h m)).
Proof.
  intros Hrecent. split.
  - unfold checkOnce, Start. cbn.
    by destruct (Z.ltb_spec (t - now) (MaxStalledDuration (config m))); [|lia].
  - intros h Hup. unfold checkOnce. cbn.
    destruct (Z.ltb_spec (currentHeight m) h); [|lia].
    by destruct (Z.ltb_spec (t - now) (MaxStalledDuration (config m))); [|lia].
Qed.

Lemma checkOnce_grace_period_witness :
  checkOnce (inr 999999) 10 (Update 7 1001 stalledMonitor) =
  onSuccess (Update 7 1001 stalledMonitor).
Proof.
  destruct (checkOnce_grace_period stalledMonitor 7 10 999999) as [_ Hup].
  - cbn. lia.
  - apply Hup. cbn. lia.
Defined.

(** X9. Reporting the height the monitor already holds changes nothing: no
    number of such updates refreshes the advance timestamp. *)
Theorem updates_same_height calls m :
  Forall (fun c => c.2 = currentHeight m) calls ->
  updates calls m = m.
Proof.
  induction calls as [|[t h] calls IH] using rev_ind; intros Hall; [done|].
  apply Forall_app in Hall as [Hall Hlast].
  rewrite Forall_singleton in Hlast. cbn in Hlast.
  rewrite updates_snoc, (IH Hall). cbn [fst snd]. rewrite Hlast.
  destruct m as [cfg cur last hs]. unfold Update. cbn. by rewrite Z.ltb_irrefl.
Qed.

Lemma updates_same_height_witness :
  updates [(5, 1000); (9, 1000)] stalledMonitor = stalledMonitor.
Proof. apply updates_same_height. repeat constructor. Defined.

(** X10. A dip counts as progress: after an update below the stored height,
    an update back to the old height refreshes the advance timestamp, though
    the height never exceeded what it had been; a check within
    [MaxStalledDuration] of that second update succeeds. *)
Theorem Update_dip_refreshes m t1 t2 lower :
  lower < currentHeight m ->
  let m' := Update t2 (currentHeight m) (Update t1 lower m) in
  currentHeight m' = currentHeight m
  /\ lastAdvancedAt m' = t2
  /\ (forall t latestHeight,
        t - t2 < MaxStalledDuration (config m) ->
        checkOnce (inr latestHeight) t m' = onSuccess m').
Proof.
  intros Hdip m'. subst m'. cbn.
  destruct (Z.ltb_spec lower (currentHeight m)); [|lia].
  split; [done|]. split; [done|].
  intros t latestHeight Hrecent. unfold checkOnce. cbn.
  destruct (Z.ltb_spec lower (currentHeight m)); [|lia].
  by destruct (Z.ltb_spec (t - t2) (MaxStalledDuration (config m))); [|lia].
Qed.

Lemma Update_dip_refreshes_witness :
  lastAdvancedAt (Update 9 1000 (Update 5 400 stalledMonitor)) = 9.
Proof.
  destruct (Update_dip_refreshes stalledMonitor 5 9 400) as (_ & Ht & _).
  - cbn. lia.
  - exact Ht.
Defined.

End MonitorMore.

(** * Further properties of [logStoreV2] *)

Section LogStoreV2More.
Import Store Mysql.
Local Open Scope db_scope.

Implicit Types (E : environment) (db : database) (logs rows : list logV2)
  (items : list item).

#[local] Existing Instance byIndex_trans.
#[local] Existing Instance byIndex_total.

(** ** The statements of the collecting loops *)

Lemma attempted_nil E db logs : attempted E [] db (Ok logs, db).
Proof.
  unfold attempted. cbn. rewrite app_nil_r. repeat split; constructor.
Qed.

Lemma lookups_app items1 items2 :
  lookups (items1 ++ items2) = lookups items1 ++ lookups items2.
Proof. unfold lookups. by rewrite fmap_app. Qed.

Lemma attempted_bind E items1 items2 db
    (m : M (list logV2)) (k : list logV2 -> M (list logV2)) :
  attempted E items1 db (m db) ->
  (forall logs' db', attempted E items2 db' (k logs' db')) ->
  attempted E (items1 ++ items2) db (bind m k db).
Proof.
  intros Hm Hk. unfold bind, attempted in *.
  destruct (m db) as [[logs1|err|] db1]; cbn in Hm.
  - destruct Hm as (Ht1 & Hp1 & Hb1 & Hst1 & Hacc1).
    specialize (Hk logs1 db1).
    destruct Hk as (Ht2 & Hp2 & Hb2 & Hout).
    rewrite Ht2, Hp2, Hb2. do 3 (split; [done|]).
    destruct (k logs1 db1) as [[logs2|err|] db2]; cbn in Hout |- *.
    + destruct Hout as [Hst2 Hacc2]. split.
      * by rewrite Hst2, Hst1, lookups_app, app_assoc.
      * by apply Forall_app.
    + destruct Hout as (asked & it & rest & e & -> & Hasked & Hit & -> & Hst2).
      exists (items1 ++ asked), it, rest, e.
      split; [by rewrite app_assoc|]. split; [by apply Forall_app|].
      split; [done|]. split; [done|].
      rewrite Hst2, Hst1, <- (app_assoc items1 asked [it]), (lookups_app items1).
      by rewrite app_assoc.
    + done.
  - destruct Hm as (Ht1 & Hp1 & Hb1 & asked & it & rest & e & -> & Hasked & Hit & -> & Hst1).
    cbn. do 3 (split; [done|]).
    exists asked, it, (rest ++ items2), e.
    split; [by rewrite <- app_assoc|]. done.
  - by destruct Hm as (_ & _ & _ & ?).
Qed.

Lemma attempted_forEach {B} E (f : B -> list item)
    (body : B -> list logV2 -> M (list logV2)) :
  (forall x logs db, attempted E (f x) db (body x logs db)) ->
  forall l logs db, attempted E (l ≫= f) db (forEach l body logs db).
Proof.
  intros Hbody l. induction l as [|x l IH]; intros logs db.
  - apply attempted_nil.
  - cbn [forEach mbind list_bind]. change (mbind f l) with (l ≫= f).
    apply attempted_bind; [apply Hbody | intros; apply IH].
Qed.

Lemma attempted_pushLog E bn rcptExt k log db logs :
  attempted E [(bn, log, logExtOf rcptExt k)] db (pushLog E bn rcptExt (k, log) logs db).
Proof.
  unfold attempted, pushLog, bind, withMessage, AddContractIfAbsent, execute, ret,
    accepted, addressOf.
  destruct (faults E (OpAddContractIfAbsent (Address log))) as [e|] eqn:Hfault; cbn.
  - do 3 (split; [done|]).
    exists [], (bn, log, logExtOf rcptExt k), [], e. cbn.
    split; [done|]. split; [constructor|]. done.
  - assert (Hone : Forall (fun it => faults E (OpAddContractIfAbsent (Address it.1.2)) = None)
                     [(bn, log, logExtOf rcptExt k)]) by by repeat constructor.
    by destruct (contracts db !! Address log) as [id|]; cbn.
Qed.

Lemma attempted_pushTransaction E data bn tx db logs :
  attempted E (txLogs E data bn tx) db (pushTransaction E data bn tx logs db).
Proof.
  assert (Hext : (if bool_decide (0 < size (ReceiptExts data))%nat
                  then mjoin (ReceiptExts data !! Hash tx) else None)
                 = receiptExtOf data tx).
  { unfold receiptExtOf. case_bool_decide as Hsz; [done|].
    assert (ReceiptExts data = ∅) as -> by (apply map_size_empty_iff; lia).
    by rewrite lookup_empty. }
  unfold pushTransaction, txLogs, executedReceipt.
  destruct (mjoin (Receipts data !! Hash tx)) as [receipt|]; cbn;
    [|apply attempted_nil].
  destruct (IsTxExecutedInBlock E tx); cbn; [|apply attempted_nil].
  rewrite Hext.
  rewrite <- (imap_pair_bind
                (fun k log => (bn, log, logExtOf (receiptExtOf data tx) k))).
  apply attempted_forEach. intros [k log] logs' db'. apply attempted_pushLog.
Qed.

Lemma attempted_batch E dataSlice db logs :
  attempted E (expectedLogs E dataSlice) db (forEach dataSlice (pushEpoch E) logs db).
Proof.
  apply attempted_forEach. intros data logs1 db1.
  apply attempted_forEach. intros block logs2 db2.
  apply attempted_forEach. intros tx logs3 db3.
  apply attempted_pushTransaction.
Qed.

(** The collecting loops succeed exactly when no contract look-up of the
    batch is refused, with one row per expected record. *)
Lemma batch_accepted E dataSlice db :
  Forall (accepted E) (expectedLogs E dataSlice) ->
  exists rows db1,
    forEach dataSlice (pushEpoch E) [] db = (Ok rows, db1)
    /\ length rows = length (expectedLogs E dataSlice)
    /\ tables db1 = tables db
    /\ partitions db1 = partitions db
    /\ epochBlockMap db1 = epochBlockMap db
    /\ statements db1 = statements db ++ lookups (expectedLogs E dataSlice).
Proof.
  intros Hacc.
  pose proof (attempted_batch E dataSlice db []) as Ha.
  pose proof (collected_batch E dataSlice db []) as Hc.
  destruct (forEach dataSlice (pushEpoch E) [] db) as [[rows|err|] db1].
  - destruct Ha as (Ht & Hp & Hb & Hst & _). cbn in *.
    destruct Hc as ((rows' & -> & Hrows) & _).
    exists rows', db1. split; [done|]. split; [by eapply Forall2_length|]. done.
  - destruct Ha as (_ & _ & _ & asked & it & rest & e & Heq & _ & Hit & _).
    cbn in *. rewrite Heq in Hacc. apply Forall_app in Hacc as [_ Hacc].
    apply Forall_cons in Hacc as [Hacc _]. unfold accepted in Hacc. congruence.
  - by destruct Ha as (_ & _ & _ & ?).
Qed.

(** ** [preparePartition] *)

(** X11. [preparePartition] never panics and never touches contracts or block
    mapping.  When it succeeds, the partition returned is recorded in the
    metadata, has room (its count is below the volume size), and no
    partition was dropped.  When it fails, the error is that of the read or
    of the grow statement, wrapped, and neither tables nor metadata
    changed. *)
Theorem preparePartition_outcome E dataSlice db :
  let out := preparePartition E dataSlice db in
  contracts out.2 = contracts db
  /\ epochBlockMap out.2 = epochBlockMap db
  /\ match out.1 with
     | Ok p =>
         p ∈ partitionsOf bnPartitionedLogEntity out.2
         /\ Count p < bnPartitionedLogVolumeSize
         /\ (forall q, q ∈ partitionsOf bnPartitionedLogEntity db ->
                       q ∈ partitionsOf bnPartitionedLogEntity out.2)
     | Fail err =>
         tables out.2 = tables db
         /\ partitions out.2 = partitions db
         /\ ((exists e,
                faults E (OpLatestPartition bnPartitionedLogEntity) = Some e
                /\ err = errWithMessage e "failed to get latest log partition"
                /\ statements out.2 =
                   statements db ++ [OpLatestPartition bnPartitionedLogEntity])
             \/ (exists e,
                   faults E (OpLatestPartition bnPartitionedLogEntity) = None
                   /\ faults E (OpGrowPartition bnPartitionedLogEntity) = Some e
                   /\ err = errWithMessage e "failed to grow log partition"
                   /\ statements out.2 =
                      statements db ++ [OpLatestPartition bnPartitionedLogEntity;
                                        OpGrowPartition bnPartitionedLogEntity]))
     | Panic => False
     end.
Proof.
  assert (Hgrow : forall db0,
            let out := withMessage (growPartition E bnPartitionedLogEntity)
                         "failed to grow log partition" db0 in
            contracts out.2 = contracts db0
            /\ epochBlockMap out.2 = epochBlockMap db0
            /\ match out.1 with
               | Ok p =>
                   p ∈ partitionsOf bnPartitionedLogEntity out.2
                   /\ Count p = 0
                   /\ (forall q, q ∈ partitionsOf bnPartitionedLogEntity db0 ->
                                 q ∈ partitionsOf bnPartitionedLogEntity out.2)
               | Fail err =>
                   tables out.2 = tables db0
                   /\ partitions out.2 = partitions db0
                   /\ exists e,
                        faults E (OpGrowPartition bnPartitionedLogEntity) = Some e
                        /\ err = errWithMessage e "failed to grow log partition"
                        /\ statements out.2 =
                           statements db0 ++ [OpGrowPartition bnPartitionedLogEntity]
               | Panic => False
               end).
  { intros db0. unfold withMessage, growPartition, execute.
    destruct (faults E (OpGrowPartition bnPartitionedLogEntity)) as [e|]; cbn.
    - do 4 (split; [done|]). by exists e.
    - do 2 (split; [done|]). unfold partitionsOf. cbn. rewrite lookup_insert_eq. cbn.
      split; [apply elem_of_app; right; apply list_elem_of_here|].
      split; [done|]. intros q Hq. apply elem_of_app. by left. }
  intros out. subst out.
  destruct (faults E (OpLatestPartition bnPartitionedLogEntity)) as [e|] eqn:Hread.
  { assert (preparePartition E dataSlice db =
            (Fail (errWithMessage e "failed to get latest log partition"),
             logStatement (OpLatestPartition bnPartitionedLogEntity) db)) as ->.
    { unfold preparePartition, bind, withMessage, latestPartition, execute.
      by rewrite Hread. }
    cbn. do 4 (split; [done|]). left. by exists e. }
  set (db0 := logStatement (OpLatestPartition bnPartitionedLogEntity) db).
  assert (Hgrown :
            let out := withMessage (growPartition E bnPartitionedLogEntity)
                         "failed to grow log partition" db0 in
            contracts out.2 = contracts db
            /\ epochBlockMap out.2 = epochBlockMap db
            /\ match out.1 with
               | Ok p =>
                   p ∈ partitionsOf bnPartitionedLogEntity out.2
                   /\ Count p < bnPartitionedLogVolumeSize
                   /\ (forall q, q ∈ partitionsOf bnPartitionedLogEntity db ->
                                 q ∈ partitionsOf bnPartitionedLogEntity out.2)
               | Fail err =>
                   tables out.2 = tables db
                   /\ partitions out.2 = partitions db
                   /\ ((exists e,
                          @None error = Some e
                          /\ err = errWithMessage e "failed to get latest log partition"
                          /\ statements out.2 =
                             statements db ++ [OpLatestPartition bnPartitionedLogEntity])
                       \/ (exists e,
                             @None error = None
                             /\ faults E (OpGrowPartition bnPartitionedLogEntity) = Some e
                             /\ err = errWithMessage e "failed to grow log partition"
                             /\ statements out.2 =
                                statements db ++ [OpLatestPartition bnPartitionedLogEntity;
                                                  OpGrowPartition bnPartitionedLogEntity]))
               | Panic => False
               end).
  { specialize (Hgrow db0). cbn zeta in Hgrow |- *.
    destruct (withMessage (growPartition E bnPartitionedLogEntity)
                "failed to grow log partition" db0) as [[p|err|] db1]; cbn in Hgrow |- *.
    - destruct Hgrow as (Hc & Hb & Hin & Hcount & Hkeep).
      do 3 (split; [done|]). split; [|done]. rewrite Hcount. done.
    - destruct Hgrow as (Hc & Hb & Ht & Hp & e & He & -> & Hst).
      do 4 (split; [done|]). right. exists e. do 3 (split; [done|]).
      by rewrite Hst; cbn; rewrite <- app_assoc.
    - by destruct Hgrow as (_ & _ & ?). }
  assert (Heq : preparePartition E dataSlice db =
                match last (merge_sort byIndex (partitionsOf bnPartitionedLogEntity db)) with
                | Some p =>
                    if bnPartitionedLogVolumeSize <=? Count p
                    then withMessage (growPartition E bnPartitionedLogEntity)
                           "failed to grow log partition" db0
                    else (Ok p, db0)
                | None =>
                    withMessage (growPartition E bnPartitionedLogEntity)
                      "failed to grow log partition" db0
                end).
  { unfold preparePartition, bind, withMessage at 1, latestPartition, execute.
    rewrite Hread.
    change (partitionsOf bnPartitionedLogEntity
              (logStatement (OpLatestPartition bnPartitionedLogEntity) db))
      with (partitionsOf bnPartitionedLogEntity db).
    destruct (last (merge_sort byIndex (partitionsOf bnPartitionedLogEntity db)));
      [|done].
    by destruct (bnPartitionedLogVolumeSize <=? Count b). }
  rewrite Heq.
  destruct (last (merge_sort byIndex (partitionsOf bnPartitionedLogEntity db)))
    as [p|] eqn:Hlatest; [|exact Hgrown].
  destruct (Z.leb_spec bnPartitionedLogVolumeSize (Count p)); [exact Hgrown|].
  cbn. do 2 (split; [done|]). split; [|done].
  by apply latest_highest in Hlatest as [? _].
Qed.



(** ** [Pushn], its statements and its failures *)

Lemma first_refused_unique {A} (P : A -> Prop) (l1 l2 r1 r2 : list A) x y :
  l1 ++ x :: r1 = l2 ++ y :: r2 ->
  Forall P l1 -> ~ P x -> Forall P l2 -> ~ P y ->
  l1 = l2 /\ x = y.
Proof.
  revert l2. induction l1 as [|a l1 IH]; intros [|b l2] Heq H1 Hx H2 Hy; cbn in Heq.
  - by injection Heq as -> _.
  - injection Heq as -> _. by apply Forall_cons in H2 as [? _].
  - injection Heq as -> _. by apply Forall_cons in H1 as [? _].
  - injection Heq as -> Heq.
    apply Forall_cons in H1 as [_ H1]. apply Forall_cons in H2 as [_ H2].
    destruct (IH l2 Heq H1 Hx H2 Hy) as [-> ->]. done.
Qed.

(** After a collection that built rows, [Pushn] goes on with the insert. *)
Lemma Pushn_tail E dataSlice logPartition db rows db1 :
  forEach dataSlice (pushEpoch E) [] db = (Ok rows, db1) ->
  rows <> [] ->
  Pushn E dataSlice logPartition db =
  (createInBatches E (Index logPartition) rows ;;;
   first <- orPanic (dataSlice !! 0%nat) ;;
   firstBlock <- orPanic (Blocks first !! 0%nat) ;;
   lastData <- orPanic (last dataSlice) ;;
   pivot <- GetPivotBlock lastData ;;
   withMessage (expandBnRange E bnPartitionedLogEntity (Index logPartition)
                  (bnUint64 firstBlock) (bnUint64 pivot))
     "failed to expand partition bn range" ;;;
   withMessage (deltaUpdateCount E bnPartitionedLogEntity (Index logPartition)
                  (Z.of_nat (length rows)))
     "failed to delta update partition size") db1.
Proof.
  intros Hcollect Hrows. unfold Pushn, bind at 1. rewrite Hcollect.
  case_bool_decide as Hlen; [by destruct rows|]. done.
Qed.

(** X13. A refused contract look-up stops [Pushn] before anything is
    written: the error of the first refused look-up comes back wrapped, the
    statements sent are the look-ups up to that one, and tables and
    partition metadata are as before. *)
Theorem Pushn_contract_refused E dataSlice logPartition db asked it rest e :
  expectedLogs E dataSlice = asked ++ it :: rest ->
  Forall (accepted E) asked ->
  faults E (OpAddContractIfAbsent (addressOf it)) = Some e ->
  exists db',
    Pushn E dataSlice logPartition db =
    (Fail (errWithMessage e "failed to add contract"), db')
    /\ statements db' = statements db ++ lookups (asked ++ [it])
    /\ tables db' = tables db
    /\ partitions db' = partitions db.
Proof.
  intros Hitems Hasked Hit.
  pose proof (attempted_batch E dataSlice db []) as Ha.
  unfold Pushn, bind at 1.
  destruct (forEach dataSlice (pushEpoch E) [] db) as [[rows|err|] db1].
  - destruct Ha as (_ & _ & _ & _ & Hacc). cbn in Hacc.
    rewrite Hitems in Hacc. apply Forall_app in Hacc as [_ Hacc].
    apply Forall_cons in Hacc as [Hacc _]. unfold accepted in Hacc. congruence.
  - destruct Ha as (Ht & Hp & _ & asked' & it' & rest' & e' & Heq & Hasked' & Hit' & -> & Hst).
    cbn in *. rewrite Hitems in Heq.
    destruct (first_refused_unique (accepted E) asked asked' rest rest' it it' Heq)
      as [<- <-]; [done|unfold accepted; congruence|done|unfold accepted; congruence|].
    exists db1. assert (e' = e) as -> by congruence. done.
  - by destruct Ha as (_ & _ & _ & ?).
Qed.

Lemma Pushn_contract_refused_witness :
  exists db',
    Pushn (refusing (isLookupOf "cfx:c2")) [sampleData 1 10] firstPartition
      preparedDatabase =
    (Fail (errWithMessage (errNew "connection lost") "failed to add contract"), db')
    /\ tables db' = tables preparedDatabase.
Proof.
  destruct (Pushn_contract_refused (refusing (isLookupOf "cfx:c2")) [sampleData 1 10]
              firstPartition preparedDatabase
              [(10, sampleLog "cfx:c1", None)] (10, sampleLog "cfx:c2", None) []
              (errNew "connection lost"))
    as (db' & Hrun & _ & Htab & _).
  - vm_compute; reflexivity.
  - repeat constructor.
  - vm_compute; reflexivity.
  - by exists db'.
Defined.

(** X14. The statements of a [Pushn] that wrote a batch: one contract
    look-up per record in the order of the loops, then one insert of all
    the rows into the table of the partition, the range update and the count
    update by the number of rows.  The range recorded runs from the first
    block of the first epoch to the pivot block of the last epoch, wherever
    the logs are, and the partition's recorded range covers it afterwards. *)
Theorem Pushn_statements E dataSlice logPartition db db' :
  Pushn E dataSlice logPartition db = (Ok tt, db') ->
  expectedLogs E dataSlice <> [] ->
  exists rows first firstBlock lastData pivot,
    dataSlice !! 0%nat = Some first
    /\ Blocks first !! 0%nat = Some firstBlock
    /\ last dataSlice = Some lastData
    /\ last (Blocks lastData) = Some pivot
    /\ length rows = length (expectedLogs E dataSlice)
    /\ statements db' =
       statements db ++ lookups (expectedLogs E dataSlice) ++
       [OpCreateInBatches (Index logPartition) rows;
        OpExpandBnRange bnPartitionedLogEntity (Index logPartition)
          (bnUint64 firstBlock) (bnUint64 pivot);
        OpDeltaUpdateCount bnPartitionedLogEntity (Index logPartition)
          (Z.of_nat (length rows))]
    /\ (forall p, p ∈ partitionsOf bnPartitionedLogEntity db' ->
                  Index p = Index logPartition ->
                  exists lo hi, BnMin p = Some lo /\ BnMax p = Some hi
                                /\ lo <= bnUint64 firstBlock /\ bnUint64 pivot <= hi).
Proof.
  intros Hrun Hne.
  pose proof (attempted_batch E dataSlice db []) as Ha.
  pose proof (collected_batch E dataSlice db []) as Hc.
  destruct (forEach dataSlice (pushEpoch E) [] db) as [[rows|err|] db1] eqn:Hcollect;
    [|by revert Hrun; unfold Pushn, bind at 1; rewrite Hcollect..].
  destruct Ha as (Ht & Hp & _ & Hst & _). cbn in Ht, Hp, Hst, Hc.
  destruct Hc as ((rows' & [= ->] & Hrows) & _).
  apply Forall2_length in Hrows as Hlen.
  assert (rows' <> []) as Hrows' by (intros ->; by destruct (expectedLogs E dataSlice)).
  rewrite (Pushn_tail _ _ _ _ _ _ Hcollect Hrows') in Hrun. revert Hrun.
  unfold bind, createInBatches, expandBnRange, deltaUpdateCount, GetPivotBlock,
    withMessage, execute, orPanic.
  repeat match goal with
         | |- context [faults E ?op] => destruct (faults E op); [done|]
         end.
  cbn [tables logStatement].
  destruct (tables db1 !! Index logPartition) as [old|]; [|done].
  destruct (dataSlice !! 0%nat) as [first|] eqn:Hfirst; [|done].
  destruct (Blocks first !! 0%nat) as [firstBlock|] eqn:HfirstBlock; [|done].
  destruct (last dataSlice) as [lastData|] eqn:Hlast; [|done].
  destruct (last (Blocks lastData)) as [pivot|] eqn:Hpivot; [|done].
  repeat match goal with
         | |- context [faults E ?op] => destruct (faults E op); [done|]
         end.
  intros [= <-]. exists rows', first, firstBlock, lastData, pivot.
  do 5 (split; [done|]). split.
  - cbn. rewrite Hst, <- !app_assoc. done.
  - intros p. unfold partitionsOf at 1. cbn. rewrite lookup_insert_eq. cbn.
    unfold partitionsOf at 1. cbn. rewrite lookup_insert_eq. cbn.
    unfold updatePartition. rewrite <- list_fmap_compose.
    intros (q & -> & Hq)%list_elem_of_fmap. cbn.
    destruct (Index q =? Index logPartition) eqn:Hi; cbn; rewrite ?Hi; cbn.
    + intros _. eexists _, _. split; [done|]. split; [done|].
      destruct (BnMin q), (BnMax q); lia.
    + intros Heq. apply Z.eqb_neq in Hi. done.
Qed.

Lemma Pushn_statements_witness :
  exists rows,
    statements (Pushn sampleEnvironment [sampleData 1 10] firstPartition
                  preparedDatabase).2 =
    statements preparedDatabase ++
    [OpAddContractIfAbsent "cfx:c1"; OpAddContractIfAbsent "cfx:c2";
     OpCreateInBatches 0 rows;
     OpExpandBnRange bnPartitionedLogEntity 0 10 10;
     OpDeltaUpdateCount bnPartitionedLogEntity 0 (Z.of_nat (length rows))].
Proof.
  destruct (Pushn_statements sampleEnvironment [sampleData 1 10] firstPartition
              preparedDatabase
              (Pushn sampleEnvironment [sampleData 1 10] firstPartition
                 preparedDatabase).2)
    as (rows & first & firstBlock & lastData & pivot & H1 & H2 & H3 & H4 & _ & Hst & _).
  - vm_compute; reflexivity.
  - vm_compute; discriminate.
  - exists rows. rewrite Hst.
    injection H1 as <-. injection H2 as <-. injection H3 as <-. injection H4 as <-.
    reflexivity.
Defined.

(** X15. What a failed [Pushn] leaves behind.  No partition's count has
    changed.  Either nothing was written to tables and metadata: a contract
    look-up was refused (its error wrapped), or the insert failed (its error
    as it is).  Or all the rows are in the table of the partition and the
    metadata lags: untouched when the range update failed, widened but not
    counted up when the count update failed (both errors wrapped). *)
Theorem Pushn_failure E dataSlice logPartition db err db' :
  Pushn E dataSlice logPartition db = (Fail err, db') ->
  Count <$> partitionsOf bnPartitionedLogEntity db' =
  Count <$> partitionsOf bnPartitionedLogEntity db
  /\ ((tables db' = tables db
       /\ partitions db' = partitions db
       /\ ((exists e, err = errWithMessage e "failed to add contract")
           \/ (exists rows,
                 faults E (OpCreateInBatches (Index logPartition) rows) = Some err)
           \/ (tables db !! Index logPartition = None
               /\ err = errNew "table does not exist")))
      \/ (exists old rows,
            tables db !! Index logPartition = Some old
            /\ tables db' = <[Index logPartition := old ++ rows]> (tables db)
            /\ length rows = length (expectedLogs E dataSlice)
            /\ ((partitions db' = partitions db
                 /\ exists e, err = errWithMessage e "failed to expand partition bn range")
                \/ (exists e bnMin bnMax,
                      err = errWithMessage e "failed to delta update partition size"
                      /\ partitionsOf bnPartitionedLogEntity db' =
                         updatePartition (Index logPartition) (widen bnMin bnMax)
                           (partitionsOf bnPartitionedLogEntity db))))).
Proof.
  intros Hrun.
  pose proof (attempted_batch E dataSlice db []) as Ha.
  pose proof (collected_batch E dataSlice db []) as Hc.
  destruct (forEach dataSlice (pushEpoch E) [] db) as [[rows|err0|] db1] eqn:Hcollect.
  - destruct Ha as (Ht & Hp & _ & Hst & _). cbn in Ht, Hp, Hst, Hc.
    destruct Hc as ((rows' & [= ->] & Hrows) & _).
    apply Forall2_length in Hrows as Hlen.
    assert (Hps : partitionsOf bnPartitionedLogEntity db1 =
                  partitionsOf bnPartitionedLogEntity db)
      by (unfold partitionsOf; by rewrite Hp).
    destruct (decide (rows' = [])) as [->|Hrows'].
    { revert Hrun. unfold Pushn, bind at 1. rewrite Hcollect. done. }
    rewrite (Pushn_tail _ _ _ _ _ _ Hcollect Hrows') in Hrun. revert Hrun.
    unfold bind at 1, createInBatches, execute.
    destruct (faults E (OpCreateInBatches (Index logPartition) rows')) as [e|] eqn:Hins.
    { intros [= <- <-]. split; [exact (f_equal (fmap Count) Hps)|]. left.
      split; [exact Ht|]. split; [exact Hp|]. right. left. by exists rows'. }
    cbn [tables logStatement]. rewrite Ht.
    destruct (tables db !! Index logPartition) as [old|]; cycle 1.
    { intros [= <- <-]. split; [exact (f_equal (fmap Count) Hps)|]. left.
      split; [exact Ht|]. split; [exact Hp|]. right. by right. }
    unfold bind, expandBnRange, deltaUpdateCount, GetPivotBlock, withMessage,
      execute, orPanic.
    destruct (dataSlice !! 0%nat) as [first|]; [|done].
    destruct (Blocks first !! 0%nat) as [firstBlock|]; [|done].
    destruct (last dataSlice) as [lastData|]; [|done].
    destruct (last (Blocks lastData)) as [pivot|]; [|done].
    destruct (faults E (OpExpandBnRange _ _ _ _)) as [e|].
    { intros [= <- <-]. split; [exact (f_equal (fmap Count) Hps)|]. right.
      cbn [tables setTables logStatement].
      exists old, rows'. do 3 (split; [done|]). left. split; [done|]. by exists e. }
    destruct (faults E (OpDeltaUpdateCount _ _ _)) as [e|]; [|done].
    intros [= <- <-].
    assert (Hwide : partitionsOf bnPartitionedLogEntity
                      (setPartitions
                         (<[bnPartitionedLogEntity :=
                              updatePartition (Index logPartition)
                                (widen (bnUint64 firstBlock) (bnUint64 pivot))
                                (partitionsOf bnPartitionedLogEntity db)]>
                            (partitions db)) db) =
                    updatePartition (Index logPartition)
                      (widen (bnUint64 firstBlock) (bnUint64 pivot))
                      (partitionsOf bnPartitionedLogEntity db))
      by apply partitionsOf_insert.
    unfold partitionsOf in Hwide |- *. cbn in Hwide |- *. rewrite Hp.
    rewrite Hwide. split.
    + unfold updatePartition. rewrite <- list_fmap_compose.
      apply list_fmap_ext. intros _ q _. cbn. by destruct (Index q =? Index logPartition).
    + right. exists old, rows'. do 3 (split; [done|]). right.
      by exists e, (bnUint64 firstBlock), (bnUint64 pivot).
  - revert Hrun. unfold Pushn, bind at 1. rewrite Hcollect. intros [= <- <-].
    destruct Ha as (Ht & Hp & _ & asked & it & rest & e & _ & _ & _ & -> & _).
    cbn in Ht, Hp. split; [unfold partitionsOf; by rewrite Hp|]. left.
    do 2 (split; [done|]). left. by exists e.
  - by destruct Ha as (_ & _ & _ & ?).
Qed.

Lemma Pushn_failure_witness :
  Count <$> partitionsOf bnPartitionedLogEntity
              (Pushn (refusing isDeltaUpdate) [sampleData 1 10] firstPartition
                 preparedDatabase).2 = [0].
Proof.
  destruct (Pushn_failure (refusing isDeltaUpdate) [sampleData 1 10] firstPartition
              preparedDatabase
              (errWithMessage (errNew "connection lost")
                 "failed to delta update partition size")
              (Pushn (refusing isDeltaUpdate) [sampleData 1 10] firstPartition
                 preparedDatabase).2) as [Hcount _].
  - vm_compute; reflexivity.
  - rewrite Hcount. vm_compute; reflexivity.
Defined.



(** X17. The range update reads [dataSlice[0].Blocks[0]] after the insert:
    a batch that has logs, but whose first epoch has no block, panics, and
    by then the rows are in the table of the partition while the partition
    metadata is untouched. *)
Theorem Pushn_panics_without_first_block E dataSlice logPartition db first old :
  dataSlice !! 0%nat = Some first ->
  Blocks first = [] ->
  expectedLogs E dataSlice <> [] ->
  Forall (accepted E) (expectedLogs E dataSlice) ->
  (forall rows, faults E (OpCreateInBatches (Index logPartition) rows) = None) ->
  tables db !! Index logPartition = Some old ->
  exists rows db',
    Pushn E dataSlice logPartition db = (Panic, db')
    /\ length rows = length (expectedLogs E dataSlice)
    /\ tables db' = <[Index logPartition := old ++ rows]> (tables db)
    /\ partitions db' = partitions db.
Proof.
  intros Hfirst Hblocks Hne Hacc Hins Hold.
  destruct (batch_accepted E dataSlice db Hacc)
    as (rows & db1 & Hcollect & Hlen & Ht & Hp & _ & _).
  assert (rows <> []) as Hrows
    by (intros ->; by destruct (expectedLogs E dataSlice)).
  exists rows. rewrite (Pushn_tail _ _ _ _ _ _ Hcollect Hrows).
  unfold bind, createInBatches, execute, orPanic.
  rewrite Hins. cbn [tables logStatement]. rewrite Ht, Hold, Hfirst, Hblocks. cbn.
  eexists. split; [reflexivity|]. split; [done|]. split; [|exact Hp].
  reflexivity.
Qed.

Lemma Pushn_panics_without_first_block_witness :
  (Pushn sampleEnvironment [blocklessData 1; sampleData 2 11] firstPartition
     preparedDatabase).1 = Panic.
Proof.
  destruct (Pushn_panics_without_first_block sampleEnvironment
              [blocklessData 1; sampleData 2 11] firstPartition preparedDatabase
              (blocklessData 1) [])
    as (rows & db' & -> & _).
  - reflexivity.
  - reflexivity.
  - vm_compute; discriminate.
  - repeat constructor.
  - done.
  - vm_compute; reflexivity.
  - reflexivity.
Defined.

(** ** [Popn], its failures and its repetition *)

Lemma keptBelow_idem bn rows : keptBelow bn (keptBelow bn rows) = keptBelow bn rows.
Proof.
  unfold keptBelow. induction rows as [|r rows IH]; [done|].
  rewrite filter_cons. destruct (decide (BlockNumber r < bn)) as [Hr|Hr].
  - rewrite filter_cons, decide_True by done. by rewrite IH.
  - done.
Qed.

Lemma trimmed_refl bn db : trimmed bn db db.
Proof. unfold trimmed. repeat split; try done. intros i rows' ->. by exists rows'. Qed.

Lemma trimmed_frame bn db db' :
  contracts db' = contracts db ->
  epochBlockMap db' = epochBlockMap db ->
  partitions db' = partitions db ->
  tables db' = tables db ->
  trimmed bn db db'.
Proof.
  intros Hc Hb Hp Ht. unfold trimmed, partitionsOf. rewrite Hc, Hb, Hp, Ht.
  repeat split; try done. intros i rows' ->. by exists rows'.
Qed.

Lemma trimmed_trans bn db1 db2 db3 :
  trimmed bn db1 db2 -> trimmed bn db2 db3 -> trimmed bn db1 db3.
Proof.
  intros (Hc1 & Hb1 & Hi1 & Hk1 & Hs1) (Hc2 & Hb2 & Hi2 & Hk2 & Hs2).
  unfold trimmed. split; [congruence|]. split; [congruence|]. split; [congruence|].
  split.
  - intros i. by rewrite Hk2, Hk1.
  - intros i rows3 H3. destruct (Hs2 i rows3 H3) as (rows2 & H2 & Hsub2).
    destruct (Hs1 i rows2 H2) as (rows1 & H1 & Hsub1).
    exists rows1. split; [done|]. by etrans.
Qed.

(** Deleting from one table. *)
Lemma trimmed_delete bn (index : Z) old db db' :
  tables db !! index = Some old ->
  contracts db' = contracts db ->
  epochBlockMap db' = epochBlockMap db ->
  Index <$> partitionsOf bnPartitionedLogEntity db' =
  Index <$> partitionsOf bnPartitionedLogEntity db ->
  tables db' = <[index := keptBelow bn old]> (tables db) ->
  trimmed bn db db'.
Proof.
  intros Hold Hc Hb Hi Ht. unfold trimmed. do 3 (split; [done|]). rewrite Ht. split.
  - intros i. destruct (decide (i = index)) as [->|Hne].
    + rewrite lookup_insert_eq, Hold. cbn. by rewrite keptBelow_idem.
    + by rewrite lookup_insert_ne.
  - intros i rows'. destruct (decide (i = index)) as [->|Hne].
    + rewrite lookup_insert_eq. intros [= <-]. exists old. split; [done|].
      apply sublist_filter.
    + rewrite lookup_insert_ne by done. intros ->. by exists rows'.
Qed.

Lemma Index_updatePartition index f ps :
  (forall p, Index (f p) = Index p) ->
  Index <$> updatePartition index f ps = Index <$> ps.
Proof.
  intros Hf. unfold updatePartition. rewrite <- list_fmap_compose.
  apply list_fmap_ext. intros _ p _. cbn. by destruct (Index p =? index).
Qed.

Lemma BnMax_updatePartition_addCount index delta ps :
  BnMax <$> updatePartition index (addCount delta) ps = BnMax <$> ps.
Proof.
  unfold updatePartition. rewrite <- list_fmap_compose.
  apply list_fmap_ext. intros _ p _. cbn. by destruct (Index p =? index).
Qed.

(** One turn of the loop of [Popn], whatever its outcome. *)
Lemma popPartition_step E bn p db :
  let out := popPartition E bn p tt db in
  out.1 <> Panic
  /\ trimmed bn db out.2
  /\ BnMax <$> partitionsOf bnPartitionedLogEntity out.2 =
     BnMax <$> partitionsOf bnPartitionedLogEntity db.
Proof.
  unfold popPartition, bind, deleteFrom, withMessage, deltaUpdateCount, execute.
  destruct (faults E (OpDeleteFrom (Index p) bn)); cbn zeta.
  { split; [done|]. split; [by apply trimmed_frame|done]. }
  cbn [tables logStatement].
  destruct (tables db !! Index p) as [old|] eqn:Hold.
  2:{ split; [done|]. split; [by apply trimmed_frame|done]. }
  destruct (faults E (OpDeltaUpdateCount _ _ _)).
  - split; [done|]. split; [|done]. by eapply trimmed_delete.
  - split; [done|]. split.
    + eapply trimmed_delete; [exact Hold|done|done| |done].
      unfold partitionsOf at 1. cbn. rewrite lookup_insert_eq. cbn.
      by apply Index_updatePartition.
    + unfold partitionsOf at 1. cbn. rewrite lookup_insert_eq. cbn.
      apply BnMax_updatePartition_addCount.
Qed.

Lemma popLoop_step E bn (l : list bnPartition) : forall db,
  let out := forEach l (popPartition E bn) tt db in
  out.1 <> Panic
  /\ trimmed bn db out.2
  /\ BnMax <$> partitionsOf bnPartitionedLogEntity out.2 =
     BnMax <$> partitionsOf bnPartitionedLogEntity db.
Proof.
  induction l as [|p l IH]; intros db.
  - cbn. split; [done|]. split; [apply trimmed_refl|done].
  - cbn [forEach]. unfold bind.
    destruct (popPartition_step E bn p db) as (Hnp & Htrim & Hmax).
    destruct (popPartition E bn p tt db) as [[[]|err|] db1]; cbn in Hnp, Htrim, Hmax.
    + destruct (IH db1) as (Hnp' & Htrim' & Hmax'). cbn zeta.
      split; [done|]. split; [by eapply trimmed_trans|]. by rewrite Hmax'.
    + done.
    + done.
Qed.

(** What [Popn] is once the block mapping and the candidates were read. *)
Lemma Popn_loop E epochUntil db from to :
  faults E (OpBlockRange epochUntil) = None ->
  epochBlockMap db !! epochUntil = Some (from, to) ->
  faults E (OpShrinkBnRange bnPartitionedLogEntity from) = None ->
  Popn E epochUntil db =
  forEach (worklist db from) (popPartition E from) tt
    (setPartitions
       (<[bnPartitionedLogEntity :=
            truncateRange from <$> partitionsOf bnPartitionedLogEntity db]>
          (partitions db))
       (logStatement (OpShrinkBnRange bnPartitionedLogEntity from)
          (logStatement (OpBlockRange epochUntil) db))).
Proof.
  intros Hread Hmap Hshrink.
  unfold Popn, bind, withMessagef, withMessage, BlockRange, shrinkBnRange, execute.
  rewrite Hread. cbn [epochBlockMap logStatement]. rewrite Hmap. cbn [negb fst].
  by rewrite Hshrink.
Qed.

Lemma Index_truncateRange bn p : Index (truncateRange bn p) = Index p.
Proof.
  unfold truncateRange. destruct (isCandidate bn p); [|done].
  destruct (BnMin p) as [lo|]; [|done]. by destruct (bn <=? lo).
Qed.


(** X18. Whatever the outcome of [Popn], error included: it does not panic,
    contracts, block mapping and the set of partitions are as before, no
    table appeared or vanished, no row was added, and every row below the
    first block of [epochUntil] is still in its table. *)
Theorem Popn_trims E epochUntil db from to :
  epochBlockMap db !! epochUntil = Some (from, to) ->
  (Popn E epochUntil db).1 <> Panic
  /\ trimmed from db (Popn E epochUntil db).2.
Proof.
  intros Hmap.
  destruct (faults E (OpBlockRange epochUntil)) as [e|] eqn:Hread.
  { unfold Popn, bind, withMessagef, BlockRange, execute. rewrite Hread. cbn.
    split; [done|by apply trimmed_frame]. }
  destruct (faults E (OpShrinkBnRange bnPartitionedLogEntity from)) as [e|] eqn:Hshrink.
  { unfold Popn, bind, withMessagef, withMessage, BlockRange, shrinkBnRange, execute.
    rewrite Hread. cbn [epochBlockMap logStatement]. rewrite Hmap. cbn [negb fst].
    rewrite Hshrink. cbn. split; [done|by apply trimmed_frame]. }
  rewrite (Popn_loop E epochUntil db from to Hread Hmap Hshrink).
  set (db0 := setPartitions _ _).
  destruct (popLoop_step E from (worklist db from) db0) as (Hnp & Htrim & _).
  split; [done|]. eapply trimmed_trans; [|exact Htrim].
  unfold trimmed, db0. cbn. split; [done|]. split; [done|]. split.
  - unfold partitionsOf at 1. cbn. rewrite lookup_insert_eq. cbn.
    rewrite <- list_fmap_compose. apply list_fmap_ext. intros _ p _.
    apply Index_truncateRange.
  - split; [done|]. intros i rows' ->. by exists rows'.
Qed.

Lemma Popn_trims_witness :
  (Popn (refusing isDeltaUpdate) 2 sampleDatabase).1 <> Panic
  /\ trimmed 11 sampleDatabase (Popn (refusing isDeltaUpdate) 2 sampleDatabase).2.
Proof. apply (Popn_trims (refusing isDeltaUpdate) 2 sampleDatabase 11 11). reflexivity. Defined.

Lemma partitionsOf_set entity ps (m : gmap string (list bnPartition)) db :
  partitionsOf entity (setPartitions (<[entity := ps]> m) db) = ps.
Proof. unfold partitionsOf. cbn. by rewrite lookup_insert_eq. Qed.

Lemma popLoop_error E bn (l : list bnPartition) : forall db err db',
  forEach l (popPartition E bn) tt db = (Fail err, db') ->
  (exists e, err = errWithMessage e "failed to delta update partition size")
  \/ (exists p, p ∈ l /\ faults E (OpDeleteFrom (Index p) bn) = Some err)
  \/ err = errNew "table does not exist".
Proof.
  induction l as [|p l IH]; intros db err db'; [done|].
  cbn [forEach]. unfold bind.
  destruct (popPartition E bn p tt db) as [[[]|err0|] db1] eqn:Hstep.
  - intros Hrest. destruct (IH _ _ _ Hrest) as [H|[(q & Hq & Hf)|H]]; [by left| |by right; right].
    right. left. exists q. split; [by apply list_elem_of_further|done].
  - intros [= <- <-]. revert Hstep.
    unfold popPartition, bind, deleteFrom, withMessage, deltaUpdateCount, execute.
    destruct (faults E (OpDeleteFrom (Index p) bn)) as [e|] eqn:Hdel.
    { intros [= <- _]. right. left. exists p. split; [apply list_elem_of_here|done]. }
    cbn [tables logStatement].
    destruct (tables db !! Index p) as [old|]; [|by intros [= <- _]; right; right].
    destruct (faults E (OpDeltaUpdateCount _ _ _)) as [e|]; [|done].
    intros [= <- _]. left. by exists e.
  - done.
Qed.

(** X19. What a failed [Popn] leaves behind.  Before the candidates are
    known (block mapping unreadable or missing, shrink refused) the error is
    wrapped or made by [Popn] and neither tables nor metadata changed.
    After that the recorded ranges are already truncated, whichever delete
    or count update failed; the error of a delete comes back as it is, that
    of a count update wrapped. *)
Theorem Popn_failure E epochUntil db err db' :
  Popn E epochUntil db = (Fail err, db') ->
  (tables db' = tables db
   /\ partitions db' = partitions db
   /\ ((exists e, faults E (OpBlockRange epochUntil) = Some e
                  /\ err = errWithMessagef e "failed to get block mapping for epoch %v"
                             epochUntil)
       \/ (epochBlockMap db !! epochUntil = None
           /\ err = errErrorf "no block mapping found for epoch %v" epochUntil)
       \/ (exists e, err = errWithMessage e "failed to shrink partition bn range")))
  \/ (exists from to,
        epochBlockMap db !! epochUntil = Some (from, to)
        /\ BnMax <$> partitionsOf bnPartitionedLogEntity db' =
           BnMax <$> (truncateRange from <$> partitionsOf bnPartitionedLogEntity db)
        /\ ((exists e, err = errWithMessage e "failed to delta update partition size")
            \/ (exists p, p ∈ worklist db from
                          /\ faults E (OpDeleteFrom (Index p) from) = Some err)
            \/ err = errNew "table does not exist")).
Proof.
  destruct (faults E (OpBlockRange epochUntil)) as [e|] eqn:Hread.
  { unfold Popn, bind, withMessagef, BlockRange, execute. rewrite Hread.
    intros [= <- <-]. left. do 2 (split; [done|]). left. by exists e. }
  destruct (epochBlockMap db !! epochUntil) as [[from to]|] eqn:Hmap; cycle 1.
  { unfold Popn, bind, withMessagef, BlockRange, execute. rewrite Hread.
    cbn [epochBlockMap logStatement]. rewrite Hmap. cbn.
    intros [= <- <-]. left. do 2 (split; [done|]). right. by left. }
  destruct (faults E (OpShrinkBnRange bnPartitionedLogEntity from)) as [e|] eqn:Hshrink.
  { unfold Popn, bind, withMessagef, withMessage, BlockRange, shrinkBnRange, execute.
    rewrite Hread. cbn [epochBlockMap logStatement]. rewrite Hmap. cbn [negb fst].
    rewrite Hshrink. intros [= <- <-]. left. do 2 (split; [done|]). right. right.
    by exists e. }
  rewrite (Popn_loop E epochUntil db from to Hread Hmap Hshrink).
  set (db0 := setPartitions _ _). intros Hloop. right. exists from, to. split; [done|].
  destruct (popLoop_step E from (worklist db from) db0) as (_ & _ & Hmax).
  rewrite Hloop in Hmax. cbn [snd] in Hmax. unfold db0 in Hmax.
  rewrite partitionsOf_set in Hmax. split; [done|].
  by apply popLoop_error in Hloop.
Qed.

Lemma Popn_failure_witness :
  BnMax <$> partitionsOf bnPartitionedLogEntity
              (Popn (refusing isDelete) 2 sampleDatabase).2 = [Some 10]
  /\ length <$> tables (Popn (refusing isDelete) 2 sampleDatabase).2 !! 0 = Some 4%nat.
Proof.
  destruct (Popn_failure (refusing isDelete) 2 sampleDatabase (errNew "connection lost")
              (Popn (refusing isDelete) 2 sampleDatabase).2)
    as [(_ & Hparts & _)|(from & to & Hmap & Hmax & _)].
  - vm_compute; reflexivity.
  - exfalso.
    apply (f_equal (fun m => BnMax <$> default [] (m !! bnPartitionedLogEntity)))
      in Hparts.
    vm_compute in Hparts. discriminate.
  - split; [|vm_compute; reflexivity].
    rewrite Hmax. injection Hmap as <- _. vm_compute; reflexivity.
Defined.

Lemma filter_none (bn : Z) (ps : list bnPartition) :
  (forall q, q ∈ ps -> isCandidate bn q = false) ->
  filter (fun p => isCandidate bn p = true) ps = [].
Proof.
  induction ps as [|p ps IH]; intros Hnone; [done|].
  rewrite filter_cons, decide_False.
  - apply IH. intros q Hq. by apply Hnone, list_elem_of_further.
  - rewrite (Hnone p) by apply list_elem_of_here. done.
Qed.



(** ** [Pushn] then [Popn] *)

Lemma last_elem {A} (l : list A) x : last l = Some x -> x ∈ l.
Proof.
  intros [l' ->]%last_Some. apply elem_of_app. right. apply list_elem_of_here.
Qed.

(** Every expected record carries the number of a block of the batch. *)
Lemma expectedLogs_blocks E dataSlice (P : Z -> Prop) :
  Forall (fun data => Forall (fun block => P (bnUint64 block)) (Blocks data)) dataSlice ->
  Forall (fun it : item => P it.1.1) (expectedLogs E dataSlice).
Proof.
  intros Hall. apply Forall_forall. intros it. unfold expectedLogs.
  intros (data & Hit & Hdata)%list_elem_of_bind.
  apply list_elem_of_bind in Hit as (block & Hit & Hblock).
  apply list_elem_of_bind in Hit as (tx & Hit & Htx).
  rewrite Forall_forall in Hall. specialize (Hall data Hdata).
  rewrite Forall_forall in Hall. specialize (Hall block Hblock).
  unfold txLogs in Hit. destruct (executedReceipt E data tx) as [receipt|].
  - apply elem_of_lookup_imap in Hit as (k & log & -> & _). done.
  - by apply elem_of_nil in Hit.
Qed.

(** A [Pushn] that wrote a batch, in full. *)
Lemma Pushn_written E dataSlice logPartition db db' :
  Pushn E dataSlice logPartition db = (Ok tt, db') ->
  expectedLogs E dataSlice <> [] ->
  exists rows old lastData pivot bnMin,
    Forall2 (rowOf E (contracts db')) rows (expectedLogs E dataSlice)
    /\ tables db !! Index logPartition = Some old
    /\ tables db' = <[Index logPartition := old ++ rows]> (tables db)
    /\ last dataSlice = Some lastData
    /\ last (Blocks lastData) = Some pivot
    /\ partitionsOf bnPartitionedLogEntity db' =
       updatePartition (Index logPartition) (addCount (Z.of_nat (length rows)))
         (updatePartition (Index logPartition) (widen bnMin (bnUint64 pivot))
            (partitionsOf bnPartitionedLogEntity db))
    /\ epochBlockMap db' = epochBlockMap db.
Proof.
  intros Hrun Hne.
  pose proof (attempted_batch E dataSlice db []) as Ha.
  pose proof (collected_batch E dataSlice db []) as Hc.
  destruct (forEach dataSlice (pushEpoch E) [] db) as [[rows|err|] db1] eqn:Hcollect;
    [|by revert Hrun; unfold Pushn, bind at 1; rewrite Hcollect..].
  destruct Ha as (Ht & Hp & Hb & _). cbn in Ht, Hp, Hb, Hc.
  destruct Hc as ((rows' & [= ->] & Hrows) & _).
  apply Forall2_length in Hrows as Hlen.
  assert (rows' <> []) as Hrows' by (intros ->; by destruct (expectedLogs E dataSlice)).
  assert (Hps : partitionsOf bnPartitionedLogEntity db1 =
                partitionsOf bnPartitionedLogEntity db)
    by (unfold partitionsOf; by rewrite Hp).
  rewrite (Pushn_tail _ _ _ _ _ _ Hcollect Hrows') in Hrun. revert Hrun.
  unfold bind, createInBatches, expandBnRange, deltaUpdateCount, GetPivotBlock,
    withMessage, execute, orPanic.
  repeat match goal with
         | |- context [faults E ?op] => destruct (faults E op); [done|]
         end.
  cbn [tables logStatement]. rewrite Ht.
  destruct (tables db !! Index logPartition) as [old|] eqn:Hold; [|done].
  destruct (dataSlice !! 0%nat) as [first|] eqn:Hfirst; [|done].
  destruct (Blocks first !! 0%nat) as [firstBlock|] eqn:HfirstBlock; [|done].
  destruct (last dataSlice) as [lastData|] eqn:Hlast; [|done].
  destruct (last (Blocks lastData)) as [pivot|] eqn:Hpivot; [|done].
  repeat match goal with
         | |- context [faults E ?op] => destruct (faults E op); [done|]
         end.
  intros [= <-]. exists rows', old, lastData, pivot, (bnUint64 firstBlock).
  split; [done|]. split; [done|]. split; [reflexivity|].
  split; [done|]. split; [done|]. split; [|done].
  unfold partitionsOf at 1. cbn. rewrite lookup_insert_eq. cbn.
  do 2 f_equal. unfold partitionsOf. cbn. rewrite lookup_insert_eq. cbn.
  by rewrite Hp.
Qed.

(** X21. Round trip.  Over a database that executes every statement, with a
    parser that records the block number it is given: a batch whose blocks
    all are at or above the first block [from] of [epochUntil], pushed into
    a store that holds nothing at or above [from], is taken back by [Popn]:
    every table and every partition count is as before the push. *)
Theorem Pushn_Popn_round_trip E dataSlice logPartition epochUntil from to db db1 :
  (forall op, faults E op = None) ->
  (forall log cid bn ext, BlockNumber (ParseCfxLog E log cid bn ext) = bn) ->
  epochBlockMap db !! epochUntil = Some (from, to) ->
  Forall (fun data => Forall (fun block => from <= bnUint64 block) (Blocks data))
    dataSlice ->
  NoDup (Index <$> partitionsOf bnPartitionedLogEntity db) ->
  logPartition ∈ partitionsOf bnPartitionedLogEntity db ->
  Forall (fun p => 0 <= Count p /\ isCandidate from p = false)
    (partitionsOf bnPartitionedLogEntity db) ->
  (forall old, tables db !! Index logPartition = Some old ->
               Forall (fun r => BlockNumber r < from) old) ->
  Pushn E dataSlice logPartition db = (Ok tt, db1) ->
  exists db2,
    Popn E epochUntil db1 = (Ok tt, db2)
    /\ tables db2 = tables db
    /\ Count <$> partitionsOf bnPartitionedLogEntity db2 =
       Count <$> partitionsOf bnPartitionedLogEntity db
    /\ Index <$> partitionsOf bnPartitionedLogEntity db2 =
       Index <$> partitionsOf bnPartitionedLogEntity db.
Proof.
  intros Hok Hparse Hmap Hblocks Hnd Htarget Hstore Hold Hpush.
  set (ps := partitionsOf bnPartitionedLogEntity db) in *.
  assert (Hquiet : forall dbq,
            epochBlockMap dbq !! epochUntil = Some (from, to) ->
            (forall q, q ∈ partitionsOf bnPartitionedLogEntity dbq ->
                       isCandidate from q = false) ->
            exists db2,
              Popn E epochUntil dbq = (Ok tt, db2)
              /\ tables db2 = tables dbq
              /\ partitionsOf bnPartitionedLogEntity db2 =
                 partitionsOf bnPartitionedLogEntity dbq).
  { intros dbq Hmapq Hnone. eexists.
    rewrite (Popn_loop E epochUntil dbq from to (Hok _) Hmapq (Hok _)).
    assert (worklist dbq from = []) as ->.
    { unfold worklist. by rewrite filter_none. }
    cbn [forEach]. split; [done|]. split; [done|].
    rewrite partitionsOf_set.
    rewrite <- (list_fmap_id (partitionsOf _ dbq)) at 2.
    apply list_fmap_ext. intros _ q Hq%list_elem_of_lookup_2. cbn.
    unfold truncateRange. by rewrite (Hnone q Hq). }
  destruct (decide (expectedLogs E dataSlice = [])) as [Hnone|Hsome].
  { pose proof (collected_batch E dataSlice db []) as Hc. rewrite Hnone in Hc.
    assert (db1 = db) as ->.
    { revert Hpush. unfold Pushn, bind at 1.
      destruct (forEach dataSlice (pushEpoch E) [] db) as [[rows|e|] db0]; [|done..].
      cbn in Hc. destruct Hc as ((rows' & [= ->] & Hrows) & _ & _ & _ & _ & Hsame).
      apply Forall2_nil_inv_r in Hrows as ->. rewrite (Hsame eq_refl).
      by intros [= <-]. }
    destruct (Hquiet db Hmap) as (db2 & Hrun & Ht & Hp).
    { intros q Hq. rewrite Forall_forall in Hstore. by apply Hstore. }
    exists db2. by rewrite Hp. }
  destruct (Pushn_written E dataSlice logPartition db db1 Hpush Hsome)
    as (rows & old & lastData & pivot & bnMin & Hrows & Holdt & Htab & Hlast & Hpivot
        & Hps1 & Hb1).
  set (index := Index logPartition) in *.
  set (n := Z.of_nat (length rows)) in *.
  set (ps1 := partitionsOf bnPartitionedLogEntity db1) in *.
  assert (Hmap1 : epochBlockMap db1 !! epochUntil = Some (from, to)) by by rewrite Hb1.
  (* the rows of the batch are at or above [from], the old ones below *)
  assert (Hkept : keptBelow from (old ++ rows) = old).
  { unfold keptBelow. rewrite filter_app.
    assert (filter (fun r => BlockNumber r < from) old = old) as ->.
    { specialize (Hold old Holdt). clear -Hold.
      induction Hold as [|r old Hr _ IH]; [done|].
      by rewrite filter_cons, decide_True, IH. }
    assert (filter (fun r => BlockNumber r < from) rows = []) as ->;
      [|by rewrite app_nil_r].
    pose proof (expectedLogs_blocks E dataSlice (fun bn => from <= bn) Hblocks) as Hbn.
    clear -Hrows Hbn Hparse.
    induction Hrows as [|row it rows items (cid & _ & ->) _ IH]; [done|].
    apply Forall_cons in Hbn as [Hit Hbn].
    rewrite filter_cons, decide_False by (rewrite Hparse; lia). by apply IH. }
  (* the candidates after the push: the target partition only *)
  assert (Hpivot_bn : from <= bnUint64 pivot).
  { apply last_elem in Hlast, Hpivot. rewrite Forall_forall in Hblocks.
    specialize (Hblocks lastData Hlast). rewrite Forall_forall in Hblocks.
    by apply Hblocks. }
  assert (Hidx1 : Index <$> ps1 = Index <$> ps).
  { rewrite Hps1. by rewrite !Index_updatePartition. }
  assert (Hcand : forall q, q ∈ ps1 -> isCandidate from q = true -> Index q = index).
  { intros q. rewrite Hps1. unfold updatePartition.
    rewrite <- list_fmap_compose.
    intros (q0 & -> & Hq0)%list_elem_of_fmap. cbn.
    rewrite Forall_forall in Hstore. destruct (Hstore q0 Hq0) as [_ Hq0c].
    destruct (Z.eqb_spec (Index q0) index) as [Heq|Hne].
    - cbn. by rewrite (proj2 (Z.eqb_eq _ _) Heq).
    - rewrite (proj2 (Z.eqb_neq _ _) Hne). congruence. }
  assert (Htarget1 : exists q, q ∈ ps1 /\ isCandidate from q = true /\ Index q = index).
  { exists (addCount n (widen bnMin (bnUint64 pivot) logPartition)).
    split; [|split; [|done]].
    - rewrite Hps1. unfold updatePartition. rewrite <- list_fmap_compose.
      apply list_elem_of_fmap. exists logPartition. split; [|done]. cbn.
      fold index. rewrite Z.eqb_refl. cbn. fold index. by rewrite Z.eqb_refl.
    - unfold isCandidate. cbn. destruct (BnMax logPartition); lia. }
  destruct (worklist_descending db1 from) as [_ Hperm]. fold ps1 in Hperm.
  assert (Hin : forall i, i ∈ Index <$> worklist db1 from <-> i = index).
  { intros i. rewrite Hperm. split.
    - intros (q & -> & [Hc Hq]%list_elem_of_filter)%list_elem_of_fmap. by apply Hcand.
    - intros ->. destruct Htarget1 as (q & Hq & Hc & <-).
      apply list_elem_of_fmap_2. by apply list_elem_of_filter. }
  assert (Hndw : NoDup (Index <$> worklist db1 from)).
  { rewrite Hperm. eapply sublist_NoDup; [rewrite <- Hidx1 in Hnd; exact Hnd|].
    apply fmap_sublist, sublist_filter. }
  set (db0 := setPartitions
                (<[bnPartitionedLogEntity := truncateRange from <$> ps1]> (partitions db1))
                (logStatement (OpShrinkBnRange bnPartitionedLogEntity from)
                   (logStatement (OpBlockRange epochUntil) db1))).
  destruct (popPartitions_ok E from Hok (fun _ => n) (worklist db1 from) db0 Hndw)
    as (db2 & Hrun & _ & Htab2 & Hps2 & _ & _).
  { intros q Hq.
    assert (Index q = index) as ->
      by (apply Hin; by apply list_elem_of_fmap_2).
    unfold deleted. change (tables db0) with (tables db1).
    rewrite Htab, lookup_insert_eq. split; [done|].
    rewrite Hkept, length_app. unfold n. lia. }
  exists db2. rewrite (Popn_loop E epochUntil db1 from to (Hok _) Hmap1 (Hok _)).
  split; [exact Hrun|]. split; [|].
  - apply map_eq. intros i. rewrite Htab2. change (tables db0) with (tables db1).
    rewrite Htab. case_bool_decide as Hi.
    + apply Hin in Hi as ->. rewrite lookup_insert_eq. cbn. by rewrite Hkept.
    + rewrite lookup_insert_ne; [done|]. intros <-. by apply Hi, Hin.
  - rewrite Hps2. unfold db0 at 1 2. rewrite partitionsOf_set.
    destruct (counts_after_loop (fun _ => n) (worklist db1 from)
                (truncateRange from <$> ps1) Hndw) as [Hcount Hindex].
    cbn zeta in Hcount, Hindex. rewrite Hcount, Hindex.
    rewrite <- !list_fmap_compose. split.
    + rewrite Hps1. unfold updatePartition.
      rewrite <- !list_fmap_compose. apply Forall_fmap_ext.
      eapply Forall_impl; [exact Hstore|]. intros q [Hq _]. cbn in Hq |- *.
      rewrite Index_truncateRange.
      assert (Hc : forall p, Count (truncateRange from p) = Count p).
      { intros p. unfold truncateRange. destruct (isCandidate from p); [|done].
        destruct (BnMin p) as [lo|]; [|done]. by destruct (from <=? lo). }
      rewrite Hc.
      destruct (Z.eqb_spec (Index q) index) as [Heq|Hne].
      * cbn. rewrite (proj2 (Z.eqb_eq _ _) Heq). cbn.
        rewrite bool_decide_eq_true_2 by by apply Hin. unfold n. lia.
      * rewrite (proj2 (Z.eqb_neq _ _) Hne).
        rewrite bool_decide_eq_false_2; [done|]. by intros ?%Hin.
    + rewrite list_fmap_compose, <- Hidx1.
      rewrite <- list_fmap_compose. apply list_fmap_ext. intros _ q _.
      apply Index_truncateRange.
Qed.

Lemma Pushn_Popn_round_trip_witness :
  exists db2,
    Popn sampleEnvironment 2
      (Pushn sampleEnvironment [sampleData 2 11]
         {| Index := 0; BnMin := Some 10; BnMax := Some 10; Count := 2 |}
         (Pushn sampleEnvironment [sampleData 1 10] firstPartition preparedDatabase).2).2
    = (Ok tt, db2)
    /\ tables db2 =
       tables (Pushn sampleEnvironment [sampleData 1 10] firstPartition preparedDatabase).2.
Proof.
  set (db := (Pushn sampleEnvironment [sampleData 1 10] firstPartition preparedDatabase).2).
  assert (Hps : partitionsOf bnPartitionedLogEntity db =
                [{| Index := 0; BnMin := Some 10; BnMax := Some 10; Count := 2 |}])
    by (vm_compute; reflexivity).
  destruct (Pushn_Popn_round_trip sampleEnvironment [sampleData 2 11]
              {| Index := 0; BnMin := Some 10; BnMax := Some 10; Count := 2 |}
              2 11 11 db
              (Pushn sampleEnvironment [sampleData 2 11]
                 {| Index := 0; BnMin := Some 10; BnMax := Some 10; Count := 2 |} db).2)
    as (db2 & Hrun & Htab & _).
  - done.
  - done.
  - vm_compute; reflexivity.
  - repeat constructor. vm_compute. discriminate.
  - rewrite Hps. cbn. apply NoDup_singleton.
  - rewrite Hps. apply list_elem_of_here.
  - rewrite Hps. repeat constructor. cbn. lia.
  - intros old Hold. vm_compute in Hold. injection Hold as <-.
    repeat constructor; cbn; lia.
  - vm_compute; reflexivity.
  - exists db2. split; [exact Hrun|exact Htab].
Defined.

End LogStoreV2More.

(** * The further [KVCacheSyncer] properties on the sample syncer *)

Section KVCacheSyncerSamples.
Import Store EpochWindow Sync.

Lemma syncOnce_journal_witness :
  syncOnce sampleCollaborators {| syncer := sampleSyncer 100 5 4; journal := [] |} =
  ((true, None), {| syncer := sampleSyncer 100 5 4; journal := [] |}).
Proof.
  destruct (syncOnce_journal sampleCollaborators
              {| syncer := sampleSyncer 100 5 4; journal := [] |}) as (_ & Hempty & _).
  apply Hempty. reflexivity.
Defined.

Lemma handleNewEpoch_calls_witness :
  syncWindow (syncer (handleNewEpoch sampleCollaborators 8
                        {| syncer := sampleSyncer 100 5 7; journal := [] |}).2) =
  expandTo (syncWindow (sampleSyncer 100 5 7)) 8.
Proof.
  destruct (handleNewEpoch_calls sampleCollaborators 8
              {| syncer := sampleSyncer 100 5 7; journal := [] |}) as (_ & _ & Hexpand).
  apply Hexpand; reflexivity.
Defined.


Lemma SyncLoop_calls_witness :
  exists tail,
    journal (SyncLoop sampleCollaborators [Some (EvNewEpoch 8); Some EvCheckPoint]
               {| syncer := sampleSyncer 100 5 7; journal := [] |}).2 = [] ++ tail
    /\ Forall (fun c => isIngest c = false) tail.
Proof.
  destruct (SyncLoop_calls sampleCollaborators [Some (EvNewEpoch 8); Some EvCheckPoint]
              {| syncer := sampleSyncer 100 5 7; journal := [] |})
    as (tail & Hjournal & _ & Hingest & _).
  exists tail. split; [exact Hjournal|]. apply Hingest.
  repeat (apply Forall_cons_2; [discriminate|]). apply Forall_nil_2.
Defined.

End KVCacheSyncerSamples.
